(** * Onset detection and FM-sweep classification
    (mesoscope/oddball_fm_sound_identity.ipynb)

    A shallow embedding of the two functions of the notebook,
    [find_onsets] and [find_fm_direction], together with the numpy
    operations they are written with.

    - A waveform is a one-dimensional float64 array: [list float] over
      Rocq's primitive binary64 floats, so the subtraction and the
      comparisons below are the IEEE ones numpy performs.
    - Index arrays ([np.flatnonzero], [onsetInds]) have dtype int64: [list Z]
      with the two's-complement wrap-around of int64 arithmetic written out
      ([wrap64]).
    - A Python exception is a value of [py_error]; a function that may raise
      returns [result A]. *)

From Stdlib Require Import ZArith List Floats Lia Sorted.
From stdpp Require Import base list gmap strings.

Set Warnings "-inexact-float".
Open Scope Z_scope.

(** ** Python exceptions *)

Inductive py_error : Set :=
| IndexError   (* indexing past the end of an array *)
| ValueError   (* numpy: FFT of zero points, argmax of an empty array *)
| KeyError.    (* dict lookup of a missing key *)

Definition result (A : Type) : Type := py_error + A.

Definition ret {A : Type} (a : A) : result A := inr a.
Definition raise {A : Type} (e : py_error) : result A := inl e.

Definition bind {A B : Type} (m : result A) (k : A -> result B) : result B :=
  match m with
  | inl e => inl e
  | inr a => k a
  end.

Notation "x <~ m ;; k" := (bind m (fun x => k))
  (at level 100, m at next level, right associativity, only parsing).

Definition returns {A : Type} (m : result A) : Prop := exists a, m = inr a.

(** ** numpy building blocks *)

(** int64 arithmetic wraps modulo 2^64 into [-2^63, 2^63). *)
Definition wrap64 (z : Z) : Z := (z + 2 ^ 63) mod 2 ^ 64 - 2 ^ 63.

Definition sub64 (x y : Z) : Z := wrap64 (x - y).

(** [a[0]] on a one-dimensional array. *)
Definition np_first {A : Type} (a : list A) : result A :=
  match a with
  | [] => raise IndexError
  | x :: _ => ret x
  end.

(** [np.diff(a, prepend=p)]: [p] is put in front of [a] and the consecutive
    differences of the extended array are taken, so the result has the
    length of [a] and starts with [a[0] - p]. *)
Fixpoint np_diff_prepend {A : Type} (sub : A -> A -> A) (p : A) (a : list A)
  : list A :=
  match a with
  | [] => []
  | x :: a' => sub x p :: np_diff_prepend sub x a'
  end.

(** [np.flatnonzero(b)] for a boolean array: the positions holding [True],
    ascending. [flatnonzero_from i b] numbers the positions from [i]. *)
Fixpoint flatnonzero_from (i : Z) (b : list bool) : list Z :=
  match b with
  | [] => []
  | true :: b' => i :: flatnonzero_from (i + 1) b'
  | false :: b' => flatnonzero_from (i + 1) b'
  end.

Definition np_flatnonzero (b : list bool) : list Z := flatnonzero_from 0 b.

(** [a[m]] for a boolean mask [m] of the length of [a]. *)
Fixpoint np_mask {A : Type} (a : list A) (m : list bool) : list A :=
  match a, m with
  | x :: a', true :: m' => x :: np_mask a' m'
  | _ :: a', false :: m' => np_mask a' m'
  | _, _ => []
  end.

(** ** find_onsets *)

(** [signalDiff > signalThreshold], elementwise on float64. *)
Definition above (signalThreshold : float) (signalDiff : list float)
  : list bool :=
  map (fun d => PrimFloat.ltb signalThreshold d) signalDiff.

(** [onsetIndsAll] for a signal whose first sample is [s0]. *)
Definition onsetIndsAll_of (s0 : float) (signal : list float)
  (signalThreshold : float) : list Z :=
  np_flatnonzero (above signalThreshold (np_diff_prepend PrimFloat.sub s0 signal)).

(** The raw candidates of a signal: [onsetIndsAll] (none for the empty
    signal, on which the function raises before computing them). *)
Definition candidates (signal : list float) (signalThreshold : float) : list Z :=
  match signal with
  | [] => []
  | s0 :: _ => onsetIndsAll_of s0 signal signalThreshold
  end.

Definition find_onsets (signal : list float) (signalThreshold : float)
  (periodThreshold : Z) : result (list Z) :=
  s0 <~ np_first signal ;;
  let signalDiff := np_diff_prepend PrimFloat.sub s0 signal in
  let signalOnset := above signalThreshold signalDiff in
  let onsetIndsAll := np_flatnonzero signalOnset in
  let onsetDiff := np_diff_prepend sub64 periodThreshold onsetIndsAll in
  let repeatedOnsets := map (fun d => d <? periodThreshold) onsetDiff in
  let onsetInds := np_mask onsetIndsAll (map negb repeatedOnsets) in
  ret onsetInds.

(** The defaults of the signature. *)
Definition default_signalThreshold : float := 0.1%float.
Definition default_periodThreshold : Z := 100000.

(** ** find_fm_direction *)

(** [a[i:j]] with Python's rules for a slice of step one: a negative bound
    counts from the end, and both bounds are clipped to the array. *)
Definition slice_bound (len k : Z) : Z :=
  if k <? 0 then Z.max (k + len) 0 else Z.min k len.

Definition py_slice {A : Type} (a : list A) (start stop : Z) : list A :=
  let len := Z.of_nat (length a) in
  let lo := slice_bound len start in
  let hi := slice_bound len stop in
  take (Z.to_nat (hi - lo)) (drop (Z.to_nat lo) a).

(** [a[i]] for [i] in [range(len(a))]. *)
Definition np_getitem {A : Type} (a : list A) (i : nat) : result A :=
  match a !! i with
  | Some x => ret x
  | None => raise IndexError
  end.

(** [d[k]] on a dict with string keys. *)
Definition dict_get (d : gmap string Z) (k : string) : result Z :=
  match d !! k with
  | Some v => ret v
  | None => raise KeyError
  end.

(** [x.argmax()] on a float64 array, as numpy's loop computes it: the running
    maximum [mp] is replaced by an element [x] when [x <= mp] is false, and
    the scan stops at the first NaN. [argmax_from mp best i l] scans [l],
    whose first element has position [i]. *)
Fixpoint argmax_from (mp : float) (best i : Z) (l : list float) : Z :=
  match l with
  | [] => best
  | x :: l' =>
      if negb (PrimFloat.leb x mp)
      then if PrimFloat.is_nan x then i else argmax_from x i (i + 1) l'
      else argmax_from mp best (i + 1) l'
  end.

Definition np_argmax (l : list float) : result Z :=
  match l with
  | [] => raise ValueError
  | x :: l' => ret (if PrimFloat.is_nan x then 0 else argmax_from x 0 1 l')
  end.

(** int64 scalar plus a Python int. *)
Definition add64 (x y : Z) : Z := wrap64 (x + y).

Definition sweepDirectionLabels : gmap string Z :=
  {[ "up" := 0; "down" := 1 ]}.

Section Classifier.

(** [rfft_magnitude x] is [abs(np.fft.rfft(x))] for an array [x] of at
    least one sample. The transform is numpy's (pocketfft), not code of
    this repository: it is a parameter here. On zero samples
    [np.fft.rfft] raises [ValueError]. *)
Variable rfft_magnitude : list float -> list float.

Definition np_abs_rfft (x : list float) : result (list float) :=
  match x with
  | [] => raise ValueError
  | _ :: _ => ret (rfft_magnitude x)
  end.

(** [abs(np.fft.rfft(x)).argmax()] *)
Definition dominant_bin (x : list float) : result Z :=
  spectrum <~ np_abs_rfft x ;;
  np_argmax spectrum.

Definition soundFirstHalf (sound : list float) (o W : Z) : list float :=
  py_slice sound o (add64 o (W / 2)).

Definition soundSecondHalf (sound : list float) (o W : Z) : list float :=
  py_slice sound (add64 o (W / 2)) (add64 o W).

(** The classification of one trial: the body of the loop from the two
    slices to the value stored in [sweepDirection]. *)
Definition classify_onset (sound : list float) (o : Z)
  (soundDurationInSamples : Z) : result Z :=
  freqFirstHalf <~ dominant_bin (soundFirstHalf sound o soundDurationInSamples) ;;
  freqSecondHalf <~ dominant_bin (soundSecondHalf sound o soundDurationInSamples) ;;
  if freqSecondHalf <? freqFirstHalf
  then dict_get sweepDirectionLabels "down"
  else dict_get sweepDirectionLabels "up".

(** One iteration of [for indTrial in range(nTrials)], on the array
    [sweepDirection] the loop updates in place. *)
Definition trial_step (sound : list float) (onsetInds : list Z)
  (soundDurationInSamples : Z) (sweepDirection : list Z) (indTrial : nat)
  : result (list Z) :=
  o <~ np_getitem onsetInds indTrial ;;
  code <~ classify_onset sound o soundDurationInSamples ;;
  ret (<[indTrial := code]> sweepDirection).

Fixpoint for_range (step : list Z -> nat -> result (list Z))
  (range : list nat) (sweepDirection : list Z) : result (list Z) :=
  match range with
  | [] => ret sweepDirection
  | indTrial :: range' =>
      sweepDirection' <~ step sweepDirection indTrial ;;
      for_range step range' sweepDirection'
  end.

Definition find_fm_direction (sound : list float) (onsetInds : list Z)
  (soundDurationInSamples : Z) : result (list Z * gmap string Z) :=
  let nTrials := length onsetInds in
  let sweepDirection := replicate nTrials 0 in
  sweepDirection' <~
    for_range (trial_step sound onsetInds soundDurationInSamples)
              (seq 0 nTrials) sweepDirection ;;
  ret (sweepDirection', sweepDirectionLabels).

End Classifier.

Definition default_soundDurationInSamples : Z := 5000.

(** An instance of the transform for windows of one or two samples, where
    the discrete Fourier transform needs no twiddle factor and is computed
    exactly as float64 sums: [X0 = a] for [[a]], and [X0 = a + b],
    [X1 = a - b] for [[a; b]]. Longer windows are outside this instance and
    are given the spectrum of silence. It runs the classifier on concrete
    inputs with windows of up to four samples. *)
Definition rfft_magnitude_small (x : list float) : list float :=
  match x with
  | [a] => [PrimFloat.abs a]
  | [a; b] => [PrimFloat.abs (a + b); PrimFloat.abs (a - b)]%float
  | _ => replicate (length x / 2 + 1)%nat 0%float
  end.

(** * Definitions used by the statements *)

(** The refractory filter on its own: the candidates [cs] that survive when
    the array is extended in front by [prev]. *)
Definition keep (periodThreshold prev : Z) (cs : list Z) : list Z :=
  np_mask cs
    (map negb
       (map (fun d => d <? periodThreshold) (np_diff_prepend sub64 prev cs))).

(** The loop as a map over the onsets, stopping at the first trial that
    raises. *)
Fixpoint classify_all (rfft_magnitude : list float -> list float)
  (sound : list float) (onsetInds : list Z) (W : Z) : result (list Z) :=
  match onsetInds with
  | [] => ret []
  | o :: onsetInds' =>
      code <~ classify_onset rfft_magnitude sound o W ;;
      codes <~ classify_all rfft_magnitude sound onsetInds' W ;;
      ret (code :: codes)
  end.

(** The notebook's cells on a loaded [soundWaveform]: the onsets, then the
    sweep directions of these onsets on the same waveform. The result holds
    the three values the last cell writes with [np.savez]. *)
Definition run_cells (rfft_magnitude : list float -> list float)
  (soundWaveform : list float) (signalThreshold : float)
  (periodThreshold soundDurationInSamples : Z)
  : result (list Z * list Z * gmap string Z) :=
  onsetInds <~ find_onsets soundWaveform signalThreshold periodThreshold ;;
  r <~ find_fm_direction rfft_magnitude soundWaveform onsetInds
         soundDurationInSamples ;;
  ret (onsetInds, fst r, snd r).

(** A sample of silence: float64 has a positive and a negative zero. *)
Definition is_zero (x : float) : Prop := x = 0%float \/ x = (-0)%float.

(** The waveform of the two-jump scenario: silence, a jump of 0.2 at
    position 3 and a jump of 0.3 at position 10. *)
Definition scenario_waveform : list float :=
  [0; 0; 0; 0.2; 0; 0; 0; 0; 0; 0; 0.3]%float.

(** Two jumps, at positions 10 and 17, after a silence longer than twice
    the period used with it. *)
Definition late_waveform : list float :=
  replicate 10 0%float ++ [0.2%float] ++ replicate 6 0%float ++ [0.3%float].

(** A waveform of twelve samples: a descending trial at 0, a rising trial
    at 4, and a trial at 9 whose window is cut by the end. *)
Definition example_sound : list float :=
  [1; -1; 1; 1; 2; 2; 1; -1; 0; 3; 1; 1]%float.

(** Silence (with a negative zero in it) followed by a click. *)
Definition example_silence : list float := [0; -0; 0; 0; 1]%float.

(** ** The order of float64 values that are not NaN *)

Definition not_nan (x : float) : Prop := PrimFloat.is_nan x = false.

(** A value that is not NaN as a point of [Z * Z * Z] under the
    lexicographic order: its class (the infinities outside, the zeros in the
    middle), then its exponent, then its mantissa, the last two mirrored for
    a negative value. *)
Definition sf_rank (f : spec_float) : Z * Z * Z :=
  match f with
  | S754_zero _ => (0, 0, 0)
  | S754_infinity s => (if s then -2 else 2, 0, 0)
  | S754_nan => (0, 0, 0)
  | S754_finite s m e => if s then (-1, - e, Z.neg m) else (1, e, Z.pos m)
  end.

Definition frank (x : float) : Z * Z * Z := sf_rank (Prim2SF x).

Definition lex_compare (a b : Z * Z * Z) : comparison :=
  match a, b with
  | (a1, a2, a3), (b1, b2, b3) =>
      match a1 ?= b1 with
      | Eq => match a2 ?= b2 with
              | Eq => a3 ?= b3
              | c => c
              end
      | c => c
      end
  end.

Definition lex_le (a b : Z * Z * Z) : Prop :=
  match a, b with
  | (a1, a2, a3), (b1, b2, b3) =>
      a1 < b1 \/ (a1 = b1 /\ (a2 < b2 \/ (a2 = b2 /\ a3 <= b3)))
  end.

(** [k] is the lowest position of a maximum of [l]: no element of [l] is
    above [l[k]], and every element before position [k] is strictly below
    it. *)
Definition first_maximum (l : list float) (k : Z) : Prop :=
  exists m : float,
    0 <= k /\
    l !! Z.to_nat k = Some m /\
    (forall x, x ∈ l -> PrimFloat.leb x m = true) /\
    (forall (j : nat) x,
        (j < Z.to_nat k)%nat -> l !! j = Some x -> PrimFloat.ltb x m = true).

(** * Properties of find_onsets *)

Lemma wrap64_small (z : Z) : - 2 ^ 63 <= z < 2 ^ 63 -> wrap64 z = z.
Proof.
  intros Hz. unfold wrap64. rewrite Z.mod_small; lia.
Qed.

Lemma keep_cons (pT prev c : Z) (cs : list Z) :
  keep pT prev (c :: cs) =
  if sub64 c prev <? pT then keep pT c cs else c :: keep pT c cs.
Proof.
  unfold keep. simpl. destruct (sub64 c prev <? pT); reflexivity.
Qed.

Lemma find_onsets_keep (s0 : float) (rest : list float) (sT : float) (pT : Z) :
  find_onsets (s0 :: rest) sT pT = inr (keep pT pT (candidates (s0 :: rest) sT)).
Proof. reflexivity. Qed.

Lemma find_onsets_inv (signal : list float) (sT : float) (pT : Z) (out : list Z) :
  find_onsets signal sT pT = inr out ->
  signal <> [] /\ out = keep pT pT (candidates signal sT).
Proof.
  destruct signal as [|s0 rest]; [discriminate|].
  rewrite find_onsets_keep. intros [= <-]. split; [discriminate|reflexivity].
Qed.

Lemma flatnonzero_from_bounds (b : list bool) (i : Z) :
  Forall (fun c => i <= c < i + Z.of_nat (length b)) (flatnonzero_from i b).
Proof.
  revert i. induction b as [|[] b IH]; intros i; simpl.
  - constructor.
  - constructor; [lia|]. eapply Forall_impl; [apply (IH (i + 1))|].
    simpl. intros; lia.
  - eapply Forall_impl; [apply (IH (i + 1))|]. simpl. intros; lia.
Qed.

Lemma flatnonzero_from_sorted (b : list bool) (i : Z) :
  StronglySorted Z.lt (flatnonzero_from i b).
Proof.
  revert i. induction b as [|[] b IH]; intros i; simpl.
  - constructor.
  - constructor; [apply IH|].
    eapply Forall_impl; [apply (flatnonzero_from_bounds b (i + 1))|].
    simpl. intros; lia.
  - apply IH.
Qed.

Lemma np_diff_prepend_length {A : Type} (sub : A -> A -> A) (p : A) (a : list A) :
  length (np_diff_prepend sub p a) = length a.
Proof.
  revert p. induction a as [|x a IH]; intros p; simpl; [reflexivity|].
  now rewrite IH.
Qed.

Lemma candidates_sorted (signal : list float) (sT : float) :
  StronglySorted Z.lt (candidates signal sT).
Proof.
  destruct signal as [|s0 rest]; [constructor|].
  apply flatnonzero_from_sorted.
Qed.

(** Every candidate is a position of the signal. *)
Lemma candidates_bounds (signal : list float) (sT : float) :
  Forall (fun c => 0 <= c < Z.of_nat (length signal)) (candidates signal sT).
Proof.
  destruct signal as [|s0 rest]; [constructor|].
  unfold candidates, onsetIndsAll_of, np_flatnonzero, above.
  eapply Forall_impl; [apply flatnonzero_from_bounds|].
  simpl. intros c. rewrite length_map, np_diff_prepend_length. simpl. lia.
Qed.

Lemma keep_Forall (P : Z -> Prop) (pT prev : Z) (cs : list Z) :
  Forall P cs -> Forall P (keep pT prev cs).
Proof.
  revert prev. induction cs as [|c cs IH]; intros prev Hcs.
  - constructor.
  - rewrite keep_cons. inversion Hcs; subst.
    destruct (sub64 c prev <? pT); [|constructor]; auto.
Qed.

Lemma keep_sorted (pT prev : Z) (cs : list Z) :
  StronglySorted Z.lt cs -> StronglySorted Z.lt (keep pT prev cs).
Proof.
  revert prev. induction cs as [|c cs IH]; intros prev Hcs.
  - constructor.
  - rewrite keep_cons. inversion Hcs; subst.
    destruct (sub64 c prev <? pT); [auto|].
    constructor; [auto|]. now apply keep_Forall.
Qed.

Lemma keep_above (pT prev c x : Z) (cs : list Z) :
  Forall (Z.lt c) cs -> x ∈ keep pT prev cs -> c < x.
Proof.
  intros Hcs Hx. apply (keep_Forall _ pT prev) in Hcs.
  rewrite Forall_forall in Hcs. auto.
Qed.

(** The head of the candidate array is kept exactly when its difference to
    the prepended value is not below the threshold. *)
Lemma keep_head (pT prev c : Z) (cs : list Z) :
  StronglySorted Z.lt (c :: cs) ->
  c ∈ keep pT prev (c :: cs) <-> pT <= sub64 c prev.
Proof.
  intros Hs. inversion Hs; subst. rewrite keep_cons.
  destruct (Z.ltb_spec (sub64 c prev) pT) as [Hlt|Hge].
  - split; [|lia]. intros Hin.
    apply (keep_above pT c c c cs) in Hin; [lia|assumption].
  - split; [lia|]. intros _. apply elem_of_cons. now left.
Qed.

(** A later candidate is kept exactly when its difference to the candidate
    just before it is not below the threshold. *)
Lemma keep_next (pT prev p c : Z) (cs : list Z) (i : nat) :
  StronglySorted Z.lt cs ->
  cs !! i = Some p -> cs !! S i = Some c ->
  c ∈ keep pT prev cs <-> pT <= sub64 c p.
Proof.
  revert prev i. induction cs as [|x cs IH]; intros prev i Hs Hp Hc.
  - discriminate.
  - inversion Hs as [|? ? Hs' Hx]; subst.
    assert (Hxc : x < c).
    { rewrite Forall_forall in Hx. apply Hx.
      simpl in Hc. now apply list_elem_of_lookup_2 in Hc. }
    assert (Hstep : c ∈ keep pT prev (x :: cs) <-> c ∈ keep pT x cs).
    { rewrite keep_cons. destruct (sub64 x prev <? pT); [reflexivity|].
      rewrite elem_of_cons. split; [intros [->|]; [lia|assumption]|auto]. }
    rewrite Hstep. destruct i as [|j].
    + simpl in Hp. injection Hp as ->. simpl in Hc.
      destruct cs as [|c' cs']; [discriminate|]. simpl in Hc. injection Hc as ->.
      now apply keep_head.
    + simpl in Hp, Hc. now apply (IH x j).
Qed.

(** C1. The first candidate is not always returned: [np.diff] puts
    [periodThreshold] in front of the candidate array as a value, so the
    first difference is [c0 - periodThreshold] and not [periodThreshold].
    With the defaults, a signal whose only jump is at position 1 has the
    candidate 1 and an empty Onset Sequence. *)
Theorem find_onsets_first_candidate_dropped :
  candidates [0; 1]%float default_signalThreshold = [1] /\
  np_diff_prepend sub64 default_periodThreshold [1] = [-99999] /\
  find_onsets [0; 1]%float default_signalThreshold default_periodThreshold
  = inr [].
Proof. repeat split; vm_compute; reflexivity. Qed.

(** C2. On the scenario waveform with [signalThreshold = 0.1] and
    [periodThreshold = 5] the candidates are 3 and 10, the differences are
    [3 - 5 = -2] and [10 - 3 = 7], and the function returns [[10]], not
    [[3; 10]]; the same holds when the waveform stays at 0.3 afterwards. *)
Theorem find_onsets_scenario :
  candidates scenario_waveform 0.1%float = [3; 10] /\
  np_diff_prepend sub64 5 [3; 10] = [-2; 7] /\
  find_onsets scenario_waveform 0.1%float 5 = inr [10] /\
  find_onsets (scenario_waveform ++ [0.3; 0.3; 0.3; 0.3]%float) 0.1%float 5
  = inr [10].
Proof. repeat split; vm_compute; reflexivity. Qed.

(** C3, as the claim states it, fails: on the empty waveform the function
    does not return the empty Onset Sequence. *)
Lemma find_onsets_empty_not_returned :
  find_onsets [] default_signalThreshold default_periodThreshold <> inr [].
Proof. vm_compute. discriminate. Qed.

(** C3, amended. On the empty waveform [find_onsets] raises [IndexError]
    (it reads [signal[0]]), whatever the thresholds; on every waveform of at
    least one sample it returns an Onset Sequence. *)
Theorem find_onsets_raises_iff_empty :
  (forall (sT : float) (pT : Z), find_onsets [] sT pT = inl IndexError) /\
  (forall (s0 : float) (rest : list float) (sT : float) (pT : Z),
      returns (find_onsets (s0 :: rest) sT pT)).
Proof.
  split.
  - intros sT pT. reflexivity.
  - intros s0 rest sT pT. eexists. apply find_onsets_keep.
Qed.

(** C4. A candidate [c] that is not the first, with [p] the raw candidate
    just before it, is in the returned Onset Sequence exactly when
    [c - p >= periodThreshold], and is discarded exactly when
    [c - p < periodThreshold]: only the preceding raw candidate matters, not
    the onsets accepted so far. (The signal is an array in memory: its
    length is within int64.) *)
Theorem find_onsets_gap_to_previous_candidate
  (signal : list float) (sT : float) (pT : Z) (out : list Z)
  (i : nat) (p c : Z) :
  Z.of_nat (length signal) <= 2 ^ 63 ->
  find_onsets signal sT pT = inr out ->
  candidates signal sT !! i = Some p ->
  candidates signal sT !! S i = Some c ->
  (c ∈ out <-> pT <= c - p) /\ (c ∉ out <-> c - p < pT).
Proof.
  intros Hlen Hout Hp Hc.
  apply find_onsets_inv in Hout as [_ ->].
  pose proof (candidates_bounds signal sT) as Hb.
  rewrite Forall_forall in Hb.
  pose proof (Hb p (list_elem_of_lookup_2 _ _ _ Hp)) as Hbp.
  pose proof (Hb c (list_elem_of_lookup_2 _ _ _ Hc)) as Hbc.
  pose proof (keep_next pT pT p c _ i (candidates_sorted signal sT) Hp Hc) as Hk.
  unfold sub64 in Hk. rewrite wrap64_small in Hk by lia.
  split; [exact Hk|]. rewrite Hk. lia.
Qed.

Lemma find_onsets_gap_to_previous_candidate_witness :
  (10 ∈ [10] <-> 5 <= 10 - 3) /\ (10 ∉ [10] <-> 10 - 3 < 5).
Proof.
  apply (find_onsets_gap_to_previous_candidate
           scenario_waveform 0.1%float 5 [10] 0 3 10).
  - vm_compute. discriminate.
  - vm_compute. reflexivity.
  - vm_compute. reflexivity.
  - vm_compute. reflexivity.
Defined.

(** C6. The Onset Sequence returned by [find_onsets] is strictly
    increasing. *)
Theorem find_onsets_strictly_increasing
  (signal : list float) (sT : float) (pT : Z) (out : list Z) :
  find_onsets signal sT pT = inr out -> StronglySorted Z.lt out.
Proof.
  intros Hout. apply find_onsets_inv in Hout as [_ ->].
  apply keep_sorted, candidates_sorted.
Qed.

Lemma find_onsets_strictly_increasing_witness :
  StronglySorted Z.lt [10; 17].
Proof.
  apply (find_onsets_strictly_increasing late_waveform 0.1%float 5 [10; 17]).
  vm_compute. reflexivity.
Defined.

(** C9. When the candidate array is not empty, its first element [c0] is in
    the returned Onset Sequence exactly when [c0 >= 2 * periodThreshold]:
    the first difference computed is [c0 - periodThreshold]. (Ranges within
    which no int64 operation wraps: an array of at most 2^62 samples and
    [-2^62 <= periodThreshold < 2^63].) *)
Theorem find_onsets_first_candidate_iff
  (signal : list float) (sT : float) (pT : Z) (out : list Z)
  (c0 : Z) (rest : list Z) :
  Z.of_nat (length signal) <= 2 ^ 62 ->
  - 2 ^ 62 <= pT < 2 ^ 63 ->
  candidates signal sT = c0 :: rest ->
  find_onsets signal sT pT = inr out ->
  hd_error (np_diff_prepend sub64 pT (candidates signal sT)) = Some (c0 - pT) /\
  (c0 ∈ out <-> 2 * pT <= c0).
Proof.
  intros Hlen HpT Hcs Hout.
  apply find_onsets_inv in Hout as [_ ->].
  pose proof (candidates_bounds signal sT) as Hb.
  pose proof (candidates_sorted signal sT) as Hs.
  rewrite Hcs in *. inversion Hb as [|? ? Hc0 _]; subst.
  assert (Hw : sub64 c0 pT = c0 - pT) by (apply wrap64_small; lia).
  split.
  - simpl. now rewrite Hw.
  - rewrite (keep_head pT pT c0 rest Hs), Hw. lia.
Qed.

Lemma find_onsets_first_candidate_iff_witness :
  hd_error (np_diff_prepend sub64 5 (candidates scenario_waveform 0.1%float))
  = Some (3 - 5) /\
  (3 ∈ [10] <-> 2 * 5 <= 3).
Proof.
  apply (find_onsets_first_candidate_iff scenario_waveform 0.1%float 5 [10] 3 [10]).
  - vm_compute. discriminate.
  - lia.
  - vm_compute. reflexivity.
  - vm_compute. reflexivity.
Defined.

Lemma sorted_lookup_le (cs : list Z) (j k : nat) (a b : Z) :
  StronglySorted Z.lt cs -> (j <= k)%nat ->
  cs !! j = Some b -> cs !! k = Some a -> b <= a.
Proof.
  intros Hs. revert j k. induction Hs as [|x cs Hs IH Hx]; intros j k Hjk Hb Ha.
  - discriminate.
  - destruct j as [|j], k as [|k]; simpl in *; try lia.
    + injection Hb as <-. injection Ha as <-. lia.
    + injection Hb as <-. rewrite Forall_forall in Hx.
      apply list_elem_of_lookup_2 in Ha. apply Hx in Ha. lia.
    + apply (IH j k); [lia|assumption|assumption].
Qed.

Lemma keep_elem_of (pT prev x : Z) (cs : list Z) :
  x ∈ keep pT prev cs -> x ∈ cs.
Proof.
  revert prev. induction cs as [|c cs IH]; intros prev.
  - intros Hx. exact Hx.
  - rewrite keep_cons. destruct (sub64 c prev <? pT).
    + intros Hx. right. eauto.
    + intros [->|Hx]%elem_of_cons; [now left|right; eauto].
Qed.

(** X1. Two distinct onsets of the returned sequence are at least
    [periodThreshold] apart: the later one is at least that far from the
    raw candidate just before it, which is the earlier onset or lies after
    it. *)
Theorem find_onsets_separation
  (signal : list float) (sT : float) (pT : Z) (out : list Z) (a b : Z) :
  Z.of_nat (length signal) <= 2 ^ 63 ->
  find_onsets signal sT pT = inr out ->
  a ∈ out -> b ∈ out -> a < b ->
  pT <= b - a.
Proof.
  intros Hlen Hout Ha Hb Hab.
  apply find_onsets_inv in Hout as [_ ->].
  pose proof (candidates_sorted signal sT) as Hs.
  pose proof (candidates_bounds signal sT) as Hbd.
  rewrite Forall_forall in Hbd.
  pose proof (keep_elem_of _ _ _ _ Ha) as Hac.
  pose proof (keep_elem_of _ _ _ _ Hb) as Hbc.
  apply list_elem_of_lookup_1 in Hac as [k Hk].
  apply list_elem_of_lookup_1 in Hbc as [j Hj].
  destruct j as [|i].
  - pose proof (sorted_lookup_le _ 0 k a b Hs ltac:(lia) Hj Hk). lia.
  - destruct (lookup_lt_is_Some_2 (candidates signal sT) i) as [p Hp].
    { apply lookup_lt_Some in Hj. lia. }
    assert (Hap : a <= p).
    { destruct (Nat.le_gt_cases k i) as [Hki|Hki].
      - exact (sorted_lookup_le _ k i p a Hs Hki Hk Hp).
      - pose proof (sorted_lookup_le _ (S i) k a b Hs ltac:(lia) Hj Hk). lia. }
    pose proof (sorted_lookup_le _ i (S i) b p Hs ltac:(lia) Hp Hj) as Hpb.
    pose proof (Hbd p (list_elem_of_lookup_2 _ _ _ Hp)) as Hbp.
    pose proof (Hbd b (list_elem_of_lookup_2 _ _ _ Hj)) as Hbb.
    apply (keep_next pT pT p b _ i Hs Hp Hj) in Hb.
    unfold sub64 in Hb. rewrite wrap64_small in Hb by lia. lia.
Qed.

Lemma find_onsets_separation_witness : 5 <= 17 - 10.
Proof.
  apply (find_onsets_separation late_waveform 0.1%float 5 [10; 17] 10 17).
  - vm_compute. discriminate.
  - vm_compute. reflexivity.
  - apply elem_of_cons. left. reflexivity.
  - apply elem_of_cons. right. apply elem_of_cons. left. reflexivity.
  - lia.
Defined.

(** X2. Every onset returned is a raw candidate, hence a position of the
    signal. *)
Theorem find_onsets_positions
  (signal : list float) (sT : float) (pT : Z) (out : list Z) :
  find_onsets signal sT pT = inr out ->
  Forall (fun o => o ∈ candidates signal sT /\
                   0 <= o < Z.of_nat (length signal)) out.
Proof.
  intros Hout. apply find_onsets_inv in Hout as [_ ->].
  pose proof (candidates_bounds signal sT) as Hbd.
  rewrite Forall_forall in *. intros o Ho.
  apply keep_elem_of in Ho. auto.
Qed.

Lemma find_onsets_positions_witness :
  Forall (fun o => o ∈ candidates late_waveform 0.1%float /\
                   0 <= o < Z.of_nat (length late_waveform)) [10; 17].
Proof.
  apply (find_onsets_positions late_waveform 0.1%float 5 [10; 17]).
  vm_compute. reflexivity.
Defined.

(** * Properties of find_fm_direction *)

Lemma wrap64_add (x y : Z) : - 2 ^ 63 <= x + y < 2 ^ 63 -> add64 x y = x + y.
Proof. apply wrap64_small. Qed.

(** With bounds that are not negative, [a[s:e]] is [a[:e]] without its
    first [s] elements. *)
Lemma py_slice_nonneg {A : Type} (a : list A) (s e : Z) :
  0 <= s -> 0 <= e ->
  py_slice a s e = drop (Z.to_nat s) (take (Z.to_nat e) a).
Proof.
  intros Hs He. unfold py_slice, slice_bound.
  destruct (Z.ltb_spec s 0) as [|_]; [lia|].
  destruct (Z.ltb_spec e 0) as [|_]; [lia|].
  set (len := Z.of_nat (length a)).
  destruct (Z_lt_le_dec (Z.min e len) (Z.min s len)) as [Hlt|Hle].
  - replace (Z.to_nat (Z.min e len - Z.min s len)) with 0%nat by lia.
    rewrite take_0. symmetry. apply drop_ge. rewrite length_take. lia.
  - rewrite take_drop_commute.
    replace (Z.to_nat (Z.min s len) + Z.to_nat (Z.min e len - Z.min s len))%nat
      with (Z.to_nat (Z.min e len)) by lia.
    assert (Ht : take (Z.to_nat (Z.min e len)) a = take (Z.to_nat e) a).
    { destruct (Z_le_gt_dec e len); [f_equal; lia|].
      rewrite !take_ge; [reflexivity|lia|lia]. }
    rewrite Ht.
    destruct (Z_le_gt_dec s len); [f_equal; lia|].
    rewrite !drop_ge; [reflexivity| |]; rewrite length_take; lia.
Qed.

Lemma py_slice_length {A : Type} (a : list A) (s e : Z) :
  0 <= s -> 0 <= e ->
  Z.of_nat (length (py_slice a s e))
  = Z.max 0 (Z.min e (Z.of_nat (length a)) - s).
Proof.
  intros Hs He. rewrite py_slice_nonneg by assumption.
  rewrite length_drop, length_take. lia.
Qed.

Lemma py_slice_nil_iff {A : Type} (a : list A) (s e : Z) :
  0 <= s -> 0 <= e ->
  py_slice a s e = [] <-> e <= s \/ Z.of_nat (length a) <= s.
Proof.
  intros Hs He. pose proof (py_slice_length a s e Hs He) as Hl.
  split.
  - intros Hnil. rewrite Hnil in Hl. simpl in Hl. lia.
  - intros H. apply length_zero_iff_nil. lia.
Qed.

Lemma np_argmax_returns (l : list float) : l <> [] -> returns (np_argmax l).
Proof. destruct l; [congruence|]. intros _. eexists. reflexivity. Qed.

(** Elements that are all [<=] the running maximum leave the position of
    the maximum where it is: among equal maxima the first one is returned. *)
Lemma argmax_from_no_greater (mp : float) (best i : Z) (l : list float) :
  Forall (fun x => PrimFloat.leb x mp = true) l ->
  argmax_from mp best i l = best.
Proof.
  revert i. induction l as [|x l IH]; intros i Hl; [reflexivity|].
  inversion Hl as [|? ? Hx Hl']; subst. simpl. rewrite Hx. simpl. auto.
Qed.

Lemma np_argmax_silence (n : nat) :
  np_argmax (replicate (S n) 0%float) = inr 0.
Proof.
  simpl. rewrite argmax_from_no_greater; [reflexivity|].
  apply Forall_replicate. reflexivity.
Qed.

(** ** The order of float64 and [argmax] *)

Lemma SFcompare_rank (a b : spec_float) :
  a <> S754_nan -> b <> S754_nan ->
  SFcompare a b = Some (lex_compare (sf_rank a) (sf_rank b)).
Proof.
  intros Ha Hb.
  destruct a as [s1|s1| |s1 m1 e1], b as [s2|s2| |s2 m2 e2]; try congruence;
    try (destruct s1); try (destruct s2). all: try reflexivity.
  all: simpl.
  all: try (rewrite Z.compare_opp, (Z.compare_antisym e1 e2)).
  all: destruct (e1 ?= e2); reflexivity.
Qed.

Lemma lex_compare_le (a b : Z * Z * Z) :
  lex_compare a b <> Gt <-> lex_le a b.
Proof.
  destruct a as [[a1 a2] a3], b as [[b1 b2] b3]. unfold lex_compare, lex_le.
  destruct (Z.compare_spec a1 b1), (Z.compare_spec a2 b2),
    (Z.compare_spec a3 b3); split; intros; try lia; congruence.
Qed.

Lemma not_nan_spec (x : float) : not_nan x -> Prim2SF x <> S754_nan.
Proof.
  unfold not_nan, PrimFloat.is_nan. rewrite FloatAxioms.eqb_spec. intros H Hn.
  rewrite Hn in H. discriminate.
Qed.

Lemma leb_rank (x y : float) :
  not_nan x -> not_nan y ->
  PrimFloat.leb x y = true <-> lex_le (frank x) (frank y).
Proof.
  intros Hx Hy. rewrite leb_spec. unfold SFleb, frank.
  rewrite SFcompare_rank by now apply not_nan_spec.
  rewrite <- lex_compare_le.
  destruct (lex_compare _ _); split; congruence.
Qed.

Lemma lex_compare_lt (a b : Z * Z * Z) :
  lex_compare a b = Lt <-> ~ lex_le b a.
Proof.
  destruct a as [[a1 a2] a3], b as [[b1 b2] b3]. unfold lex_compare, lex_le.
  destruct (Z.compare_spec a1 b1), (Z.compare_spec a2 b2),
    (Z.compare_spec a3 b3); split; intros; try lia; congruence.
Qed.

Lemma ltb_rank (x y : float) :
  not_nan x -> not_nan y ->
  PrimFloat.ltb x y = true <-> ~ lex_le (frank y) (frank x).
Proof.
  intros Hx Hy. rewrite ltb_spec. unfold SFltb, frank.
  rewrite SFcompare_rank by now apply not_nan_spec.
  rewrite <- lex_compare_lt.
  destruct (lex_compare _ _); split; congruence.
Qed.

Lemma lex_le_trans (a b c : Z * Z * Z) : lex_le a b -> lex_le b c -> lex_le a c.
Proof.
  destruct a as [[a1 a2] a3], b as [[b1 b2] b3], c as [[c1 c2] c3].
  unfold lex_le. lia.
Qed.

Lemma lex_le_total (a b : Z * Z * Z) : lex_le a b \/ lex_le b a.
Proof.
  destruct a as [[a1 a2] a3], b as [[b1 b2] b3]. unfold lex_le. lia.
Qed.

(** [argmax_from] on values that are not NaN: the position returned holds a
    maximum, and every position before it holds a strictly smaller value. *)
Lemma argmax_from_first_maximum (l pre : list float) (mp : float) (best : nat) :
  Forall not_nan (pre ++ l) ->
  pre !! best = Some mp ->
  (forall x, x ∈ pre -> PrimFloat.leb x mp = true) ->
  (forall j x, (j < best)%nat -> pre !! j = Some x -> PrimFloat.ltb x mp = true) ->
  exists (k : nat) (m : float),
    argmax_from mp (Z.of_nat best) (Z.of_nat (length pre)) l = Z.of_nat k /\
    (pre ++ l) !! k = Some m /\
    (forall x, x ∈ pre ++ l -> PrimFloat.leb x m = true) /\
    (forall j x, (j < k)%nat -> (pre ++ l) !! j = Some x -> PrimFloat.ltb x m = true).
Proof.
  revert pre mp best. induction l as [|x l IH]; intros pre mp best Hnn Hbest Hle Hlt.
  - exists best, mp. rewrite app_nil_r. auto.
  - assert (Hx : not_nan x).
    { rewrite Forall_forall in Hnn. apply Hnn. set_solver. }
    assert (Hmp : not_nan mp).
    { rewrite Forall_forall in Hnn. apply Hnn.
      apply list_elem_of_lookup_2 in Hbest. set_solver. }
    assert (Hpre : forall y, y ∈ pre -> not_nan y).
    { rewrite Forall_forall in Hnn. intros y Hy. apply Hnn. set_solver. }
    simpl.
    replace (Z.of_nat (length pre) + 1) with (Z.of_nat (length (pre ++ [x])))
      by (rewrite length_app; simpl; lia).
    replace (pre ++ x :: l) with ((pre ++ [x]) ++ l) in * by now rewrite <- app_assoc.
    destruct (PrimFloat.leb x mp) eqn:Hxmp; simpl.
    + apply IH; auto.
      * now apply lookup_app_l_Some.
      * intros y [Hy | ->%list_elem_of_singleton]%elem_of_app; auto.
      * intros j y Hj Hy. apply (Hlt j y Hj).
        apply lookup_lt_Some in Hbest.
        rewrite lookup_app_l in Hy by lia. assumption.
    + rewrite Hx.
      assert (Hgt : ~ lex_le (frank x) (frank mp)).
      { intros Hc. apply (leb_rank x mp Hx Hmp) in Hc. congruence. }
      assert (Hbelow : forall y, y ∈ pre -> lex_le (frank y) (frank mp)).
      { intros y Hy. apply (leb_rank y mp (Hpre y Hy) Hmp). auto. }
      apply IH; auto.
      * apply list_lookup_middle. reflexivity.
      * intros y [Hy | ->%list_elem_of_singleton]%elem_of_app.
        -- apply (leb_rank y x (Hpre y Hy) Hx).
           destruct (lex_le_total (frank y) (frank x)) as [|Hc]; [assumption|].
           exfalso. apply Hgt. eapply lex_le_trans; eauto.
        -- apply (leb_rank x x Hx Hx).
           destruct (lex_le_total (frank x) (frank x)); assumption.
      * intros j y Hj Hy. rewrite lookup_app_l in Hy by assumption.
        apply list_elem_of_lookup_2 in Hy as Hin.
        apply (ltb_rank y x (Hpre y Hin) Hx). intros Hc. apply Hgt.
        eapply lex_le_trans; eauto.
Qed.

(** On an array without NaN, [argmax] returns the lowest position of a
    maximum. *)
Lemma np_argmax_first_maximum (l : list float) (k : Z) :
  Forall not_nan l -> np_argmax l = inr k -> first_maximum l k.
Proof.
  destruct l as [|a l]; [discriminate|]. intros Hnn Hk.
  assert (Ha : not_nan a) by (apply Forall_cons in Hnn; tauto).
  simpl in Hk. rewrite Ha in Hk. injection Hk as <-.
  destruct (argmax_from_first_maximum l [a] a 0) as (k & m & Hk & Hm & Hle & Hlt).
  - exact Hnn.
  - reflexivity.
  - intros x ->%list_elem_of_singleton. apply (leb_rank a a Ha Ha).
    destruct (lex_le_total (frank a) (frank a)); assumption.
  - intros j x Hj. lia.
  - change (argmax_from a 0 1 l = Z.of_nat k) in Hk. rewrite Hk.
    exists m. rewrite Nat2Z.id.
    split; [lia|]. auto.
Qed.

Lemma is_nan_spec (x : float) :
  PrimFloat.is_nan x = true -> Prim2SF x = S754_nan.
Proof.
  unfold PrimFloat.is_nan. rewrite FloatAxioms.eqb_spec. unfold SFeqb.
  destruct (Prim2SF x) as [s|s| |s m e] eqn:Hx; [| |reflexivity|];
    (rewrite SFcompare_rank by discriminate);
    (destruct (sf_rank _) as [[a1 a2] a3]; simpl; rewrite !Z.compare_refl;
     discriminate).
Qed.

Lemma leb_nan (x mp : float) :
  PrimFloat.is_nan x = true -> PrimFloat.leb x mp = false.
Proof.
  intros Hx. rewrite leb_spec, (is_nan_spec x Hx). reflexivity.
Qed.

Lemma argmax_from_first_nan (pre post : list float) (x mp : float) (best i : Z) :
  Forall not_nan pre -> PrimFloat.is_nan x = true ->
  argmax_from mp best i (pre ++ x :: post) = i + Z.of_nat (length pre).
Proof.
  revert mp best i. induction pre as [|y pre IH]; intros mp best i Hpre Hx.
  - simpl. rewrite (leb_nan x mp Hx), Hx. simpl. lia.
  - apply Forall_cons in Hpre as [Hy Hpre]. simpl. rewrite Hy.
    destruct (PrimFloat.leb y mp); simpl; rewrite IH by assumption;
      rewrite Nat2Z.inj_succ; lia.
Qed.

(** On an array with a NaN, [argmax] returns the position of the first
    NaN. *)
Lemma np_argmax_first_nan (pre post : list float) (x : float) :
  Forall not_nan pre -> PrimFloat.is_nan x = true ->
  np_argmax (pre ++ x :: post) = inr (Z.of_nat (length pre)).
Proof.
  intros Hpre Hx. destruct pre as [|y pre]; simpl.
  - now rewrite Hx.
  - apply Forall_cons in Hpre as [Hy Hpre]. rewrite Hy.
    rewrite argmax_from_first_nan by assumption. f_equal. lia.
Qed.

Section ClassifierFacts.

Variable rfft_magnitude : list float -> list float.

Lemma classify_onset_cases (sound : list float) (o W : Z) :
  classify_onset rfft_magnitude sound o W =
  match dominant_bin rfft_magnitude (soundFirstHalf sound o W),
        dominant_bin rfft_magnitude (soundSecondHalf sound o W) with
  | inr f1, inr f2 => inr (if f2 <? f1 then 1 else 0)
  | inl e, _ => inl e
  | inr _, inl e => inl e
  end.
Proof.
  unfold classify_onset.
  destruct (dominant_bin rfft_magnitude (soundFirstHalf sound o W)) as [e|f1]; [reflexivity|].
  destruct (dominant_bin rfft_magnitude (soundSecondHalf sound o W)) as [e|f2]; [reflexivity|].
  simpl. destruct (f2 <? f1); reflexivity.
Qed.

Lemma classify_onset_code (sound : list float) (o W code : Z) :
  classify_onset rfft_magnitude sound o W = inr code -> code = 0 \/ code = 1.
Proof.
  rewrite classify_onset_cases.
  destruct (dominant_bin rfft_magnitude _) as [|f1]; [discriminate|].
  destruct (dominant_bin rfft_magnitude _) as [|f2]; [discriminate|].
  destruct (f2 <? f1); intros [= <-]; auto.
Qed.

Lemma for_range_trial_steps (sound : list float) (W : Z)
  (rest pre : list Z) (done : list Z) :
  length done = length pre ->
  for_range (trial_step rfft_magnitude sound (pre ++ rest) W)
            (seq (length pre) (length rest))
            (done ++ replicate (length rest) 0)
  = (codes <~ classify_all rfft_magnitude sound rest W ;; ret (done ++ codes)).
Proof.
  revert pre done. induction rest as [|o rest IH]; intros pre done Hlen.
  - reflexivity.
  - simpl length. rewrite <- cons_seq, replicate_S. simpl.
    unfold trial_step at 1, np_getitem.
    rewrite (list_lookup_middle pre rest o (length pre) eq_refl). simpl.
    destruct (classify_onset rfft_magnitude sound o W) as [e|code]; [reflexivity|]. simpl.
    rewrite insert_app_r_alt by lia.
    replace (length pre - length done)%nat with 0%nat by lia. simpl.
    specialize (IH (pre ++ [o]) (done ++ [code])).
    rewrite <- !app_assoc, !length_app in IH. simpl in IH.
    replace (length pre + 1)%nat with (S (length pre)) in IH by lia.
    rewrite IH by lia.
    destruct (classify_all rfft_magnitude sound rest W) as [e|codes]; simpl;
      [reflexivity|].
    now rewrite <- app_assoc.
Qed.

Lemma find_fm_direction_classify_all (sound : list float)
  (onsetInds : list Z) (W : Z) :
  find_fm_direction rfft_magnitude sound onsetInds W
  = (codes <~ classify_all rfft_magnitude sound onsetInds W ;;
     ret (codes, sweepDirectionLabels)).
Proof.
  unfold find_fm_direction.
  pose proof (for_range_trial_steps sound W onsetInds [] [] eq_refl) as Hloop.
  cbn [app length] in Hloop. rewrite Hloop.
  destruct (classify_all rfft_magnitude sound onsetInds W); reflexivity.
Qed.

Lemma classify_all_inr (sound : list float) (onsetInds : list Z) (W : Z)
  (codes : list Z) :
  classify_all rfft_magnitude sound onsetInds W = inr codes <->
  Forall2 (fun o code => classify_onset rfft_magnitude sound o W = inr code) onsetInds codes.
Proof.
  revert codes. induction onsetInds as [|o os IH]; intros codes; simpl.
  - split.
    + intros [= <-]. constructor.
    + intros H. inversion H. reflexivity.
  - destruct (classify_onset rfft_magnitude sound o W) as [e|code] eqn:Ho; simpl.
    + split; [discriminate|]. intros H. inversion H as [|? ? ? ? Hc _]; subst.
      simpl in Hc. rewrite Ho in Hc. discriminate.
    + destruct (classify_all rfft_magnitude sound os W) as [e|codes'] eqn:Hos; simpl.
      * split; [discriminate|]. intros H. inversion H as [|? ? ? ? _ Hr]; subst.
        apply IH in Hr. discriminate.
      * split.
        -- intros [= <-]. constructor; [assumption|]. now apply IH.
        -- intros H. inversion H as [|? ? ? ? Hc Hr]; subst.
           apply IH in Hr. simpl in Hc. rewrite Ho in Hc.
           injection Hc as ->. injection Hr as ->. reflexivity.
Qed.

Lemma classify_all_inl (sound : list float) (onsetInds : list Z) (W : Z)
  (e : py_error) :
  classify_all rfft_magnitude sound onsetInds W = inl e ->
  Exists (fun o => classify_onset rfft_magnitude sound o W = inl e) onsetInds.
Proof.
  induction onsetInds as [|o os IH]; simpl; [discriminate|].
  destruct (classify_onset rfft_magnitude sound o W) as [e'|code] eqn:Ho; simpl.
  - intros [= <-]. now left.
  - destruct (classify_all rfft_magnitude sound os W) as [e'|codes']; simpl; [|discriminate].
    intros [= <-]. right. now apply IH.
Qed.

End ClassifierFacts.

Lemma classify_onset_error (rfft_magnitude : list float -> list float)
  (sound : list float) (o W : Z) (e : py_error) :
  classify_onset rfft_magnitude sound o W = inl e -> e = ValueError.
Proof.
  assert (Hd : forall x e', dominant_bin rfft_magnitude x = inl e' -> e' = ValueError).
  { intros x e'. unfold dominant_bin, np_abs_rfft.
    destruct x as [|a x]; simpl; [now intros [= <-]|].
    destruct (rfft_magnitude (a :: x)); simpl; [now intros [= <-]|discriminate]. }
  rewrite classify_onset_cases.
  destruct (dominant_bin rfft_magnitude (soundFirstHalf sound o W)) as [e1|f1] eqn:H1.
  - intros [= <-]. eauto.
  - destruct (dominant_bin rfft_magnitude (soundSecondHalf sound o W)) as [e2|f2] eqn:H2.
    + intros [= <-]. eauto.
    + discriminate.
Qed.

Lemma classify_all_returns (rfft_magnitude : list float -> list float)
  (sound : list float) (onsetInds : list Z) (W : Z) :
  Forall (fun o => returns (classify_onset rfft_magnitude sound o W)) onsetInds ->
  returns (classify_all rfft_magnitude sound onsetInds W).
Proof.
  induction 1 as [|o os [code Ho] _ [codes Hos]]; simpl.
  - eexists. reflexivity.
  - rewrite Ho, Hos. eexists. reflexivity.
Qed.

(** The two half-windows of an onset, without wrap-around. *)
Lemma half_windows (sound : list float) (o W : Z) :
  0 <= o < 2 ^ 62 -> 0 <= W < 2 ^ 62 ->
  soundFirstHalf sound o W
  = drop (Z.to_nat o) (take (Z.to_nat (o + W / 2)) sound) /\
  soundSecondHalf sound o W
  = drop (Z.to_nat (o + W / 2)) (take (Z.to_nat (o + W)) sound).
Proof.
  intros Ho HW. unfold soundFirstHalf, soundSecondHalf.
  assert (0 <= W / 2 <= W) by (split; [apply Z.div_pos|apply Z.div_le_upper_bound]; lia).
  rewrite !wrap64_add by lia. rewrite !py_slice_nonneg by lia. auto.
Qed.

Lemma half_windows_nil_iff (sound : list float) (o W : Z) :
  0 <= o < 2 ^ 62 -> 2 <= W < 2 ^ 62 ->
  (soundFirstHalf sound o W = [] <-> Z.of_nat (length sound) <= o) /\
  (soundSecondHalf sound o W = [] <-> Z.of_nat (length sound) <= o + W / 2).
Proof.
  intros Ho HW. unfold soundFirstHalf, soundSecondHalf.
  assert (1 <= W / 2) by (apply Z.div_le_lower_bound; lia).
  assert (W / 2 < W) by (apply Z.div_lt_upper_bound; lia).
  rewrite !wrap64_add by lia. rewrite !py_slice_nil_iff by lia. lia.
Qed.

Section ClassifierClaims.

Variable rfft_magnitude : list float -> list float.

(** numpy: the real transform of [n >= 1] samples has [n//2 + 1] bins. *)
Hypothesis rfft_length : forall x : list float,
  x <> [] -> length (rfft_magnitude x) = (length x / 2 + 1)%nat.

(** numpy: the transform of silence is silence, as every product and sum
    of the transform is then zero, and [abs] returns the positive zero. *)
Hypothesis rfft_silence : forall x : list float,
  x <> [] -> Forall is_zero x ->
  rfft_magnitude x = replicate (length x / 2 + 1)%nat 0%float.

Lemma dominant_bin_returns_iff (x : list float) :
  returns (dominant_bin rfft_magnitude x) <-> x <> [].
Proof.
  unfold dominant_bin, np_abs_rfft. destruct x as [|a x]; simpl.
  - split; [intros [k Hk]; discriminate|congruence].
  - split; [discriminate|]. intros _. apply np_argmax_returns.
    intros Hnil. apply (f_equal length) in Hnil.
    rewrite rfft_length in Hnil by discriminate. simpl in Hnil. lia.
Qed.

Lemma dominant_bin_window (x : list float) :
  x <> [] -> dominant_bin rfft_magnitude x = np_argmax (rfft_magnitude x).
Proof. destruct x; [congruence|reflexivity]. Qed.

Lemma classify_onset_returns_iff (sound : list float) (o W : Z) :
  0 <= o < 2 ^ 62 -> 2 <= W < 2 ^ 62 ->
  returns (classify_onset rfft_magnitude sound o W)
  <-> o + W / 2 < Z.of_nat (length sound).
Proof.
  intros Ho HW.
  destruct (half_windows_nil_iff sound o W Ho HW) as [Hf Hs].
  assert (1 <= W / 2) by (apply Z.div_le_lower_bound; lia).
  pose proof (dominant_bin_returns_iff (soundFirstHalf sound o W)) as H1.
  pose proof (dominant_bin_returns_iff (soundSecondHalf sound o W)) as H2.
  rewrite classify_onset_cases. unfold returns in *.
  destruct (dominant_bin rfft_magnitude (soundFirstHalf sound o W)) as [e1|f1].
  - split; [intros [? ?]; discriminate|]. intros Hlt. exfalso.
    assert (Hne : soundFirstHalf sound o W <> []) by (rewrite Hf; lia).
    apply H1 in Hne as [? ?]. discriminate.
  - destruct (dominant_bin rfft_magnitude (soundSecondHalf sound o W)) as [e2|f2].
    + split; [intros [? ?]; discriminate|]. intros Hlt. exfalso.
      assert (Hne : soundSecondHalf sound o W <> []) by (rewrite Hs; lia).
      apply H2 in Hne as [? ?]. discriminate.
    + split; [|eauto]. intros _.
      assert (Hne : soundSecondHalf sound o W <> []) by (apply H2; eauto).
      rewrite Hs in Hne. lia.
Qed.

(** C5. For an onset [o] whose full window [o, o+W) lies inside the
    waveform, the two half-windows are the [W//2] samples from [o] and the
    [W - W//2] samples after them, both dominant bins [f1] and [f2] are
    computed by [argmax] (on a spectrum without NaN: the lowest position of
    a maximum), and the code stored for the trial is 1 ("down") exactly when
    [f1 > f2] and 0 ("up") exactly when [f1 <= f2]. *)
Theorem find_fm_direction_full_window (sound : list float) (o W : Z) :
  2 <= W ->
  0 <= o ->
  o + W <= Z.of_nat (length sound) ->
  Z.of_nat (length sound) < 2 ^ 62 ->
  let first := take (Z.to_nat (W / 2)) (drop (Z.to_nat o) sound) in
  let second :=
    take (Z.to_nat (W - W / 2)) (drop (Z.to_nat (o + W / 2)) sound) in
  soundFirstHalf sound o W = first /\
  soundSecondHalf sound o W = second /\
  sweepDirectionLabels !! "down" = Some 1 /\
  sweepDirectionLabels !! "up" = Some 0 /\
  exists f1 f2 code : Z,
    np_argmax (rfft_magnitude first) = inr f1 /\
    np_argmax (rfft_magnitude second) = inr f2 /\
    (Forall not_nan (rfft_magnitude first) ->
     first_maximum (rfft_magnitude first) f1) /\
    (Forall not_nan (rfft_magnitude second) ->
     first_maximum (rfft_magnitude second) f2) /\
    classify_onset rfft_magnitude sound o W = inr code /\
    (code = 1 <-> f1 > f2) /\
    (code = 0 <-> f1 <= f2) /\
    forall (onsetInds dirs : list Z) (labels : gmap string Z) (i : nat),
      onsetInds !! i = Some o ->
      find_fm_direction rfft_magnitude sound onsetInds W = inr (dirs, labels) ->
      dirs !! i = Some code.
Proof.
  intros HW Ho Hin Hlen first second.
  assert (1 <= W / 2) by (apply Z.div_le_lower_bound; lia).
  assert (W / 2 < W) by (apply Z.div_lt_upper_bound; lia).
  destruct (half_windows sound o W) as [Hf Hs]; [lia|lia|].
  assert (Hfirst : soundFirstHalf sound o W = first).
  { rewrite Hf. subst first. rewrite take_drop_commute. do 2 f_equal. lia. }
  assert (Hsecond : soundSecondHalf sound o W = second).
  { rewrite Hs. subst second. rewrite take_drop_commute. do 2 f_equal. lia. }
  destruct (half_windows_nil_iff sound o W) as [Hfn Hsn]; [lia|lia|].
  assert (Hne1 : first <> []) by (rewrite <- Hfirst, Hfn; lia).
  assert (Hne2 : second <> []) by (rewrite <- Hsecond, Hsn; lia).
  split; [assumption|]. split; [assumption|].
  split; [reflexivity|]. split; [reflexivity|].
  destruct (proj2 (dominant_bin_returns_iff first) Hne1) as [f1 Hf1].
  destruct (proj2 (dominant_bin_returns_iff second) Hne2) as [f2 Hf2].
  exists f1, f2, (if f2 <? f1 then 1 else 0).
  assert (Hcode : classify_onset rfft_magnitude sound o W
                  = inr (if f2 <? f1 then 1 else 0)).
  { rewrite classify_onset_cases, Hfirst, Hsecond, Hf1, Hf2. reflexivity. }
  rewrite dominant_bin_window in Hf1, Hf2 by assumption.
  split; [assumption|]. split; [assumption|].
  split; [intros Hnn; now apply np_argmax_first_maximum|].
  split; [intros Hnn; now apply np_argmax_first_maximum|].
  split; [assumption|].
  split; [destruct (Z.ltb_spec f2 f1); lia|].
  split; [destruct (Z.ltb_spec f2 f1); lia|].
  intros onsetInds dirs labels i Hi Hret.
  rewrite find_fm_direction_classify_all in Hret.
  destruct (classify_all rfft_magnitude sound onsetInds W) as [e|codes] eqn:Hall;
    [discriminate|].
  simpl in Hret. injection Hret as <- <-.
  apply classify_all_inr in Hall.
  destruct (Forall2_lookup_l _ _ _ _ _ Hall Hi) as (code & Hdir & Hc).
  simpl in Hc. rewrite Hcode in Hc. injection Hc as <-. assumption.
Qed.

(** C10. With a window length [W >= 2] and onsets that are positions
    [0 <= o], [find_fm_direction] returns exactly when every onset has
    [o + W//2 < len(sound)]; when some onset has [o + W//2 >= len(sound)]
    it raises [ValueError] (the transform of an empty half-window); and
    when it returns, an onset whose window is cut by the end of the
    waveform is classified on the samples that are left. *)
Theorem find_fm_direction_returns_iff (sound : list float)
  (onsetInds : list Z) (W : Z) :
  2 <= W < 2 ^ 62 ->
  Forall (fun o => 0 <= o < 2 ^ 62) onsetInds ->
  (returns (find_fm_direction rfft_magnitude sound onsetInds W) <->
   Forall (fun o => o + W / 2 < Z.of_nat (length sound)) onsetInds) /\
  (Exists (fun o => Z.of_nat (length sound) <= o + W / 2) onsetInds ->
   find_fm_direction rfft_magnitude sound onsetInds W = inl ValueError) /\
  (forall (dirs : list Z) (labels : gmap string Z) (i : nat) (o : Z),
      find_fm_direction rfft_magnitude sound onsetInds W = inr (dirs, labels) ->
      onsetInds !! i = Some o ->
      Z.of_nat (length sound) < o + W ->
      soundSecondHalf sound o W = drop (Z.to_nat (o + W / 2)) sound /\
      (0 < Z.of_nat (length (soundSecondHalf sound o W)) < W - W / 2) /\
      exists code : Z,
        classify_onset rfft_magnitude sound o W = inr code /\
        dirs !! i = Some code).
Proof.
  intros HW Hons.
  assert (Hiff : returns (find_fm_direction rfft_magnitude sound onsetInds W) <->
                 Forall (fun o => o + W / 2 < Z.of_nat (length sound)) onsetInds).
  { rewrite find_fm_direction_classify_all. split.
    - intros [[dirs labels] Hret].
      destruct (classify_all rfft_magnitude sound onsetInds W) as [e|codes] eqn:Hall;
        [discriminate|].
      apply classify_all_inr in Hall.
      rewrite Forall_forall in Hons. apply Forall_forall. intros o Ho.
      apply list_elem_of_lookup_1 in Ho as Hi. destruct Hi as [i Hi].
      destruct (Forall2_lookup_l _ _ _ _ _ Hall Hi) as (code & _ & Hc).
      apply (classify_onset_returns_iff sound o W); [auto|lia|]. now exists code.
    - intros Hall.
      destruct (classify_all_returns rfft_magnitude sound onsetInds W) as [codes ->].
      + rewrite Forall_forall in *. intros o Ho.
        apply classify_onset_returns_iff; auto.
      + eexists. reflexivity. }
  split; [exact Hiff|]. split.
  - intros Hex. rewrite find_fm_direction_classify_all.
    destruct (classify_all rfft_magnitude sound onsetInds W) as [e|codes] eqn:Hall.
    + apply classify_all_inl in Hall. apply Exists_exists in Hall as (o & _ & Ho).
      apply classify_onset_error in Ho. now subst e.
    + exfalso. rewrite find_fm_direction_classify_all, Hall in Hiff.
      assert (Hall' : Forall (fun o => o + W / 2 < Z.of_nat (length sound)) onsetInds)
        by (apply Hiff; eexists; reflexivity).
      apply Exists_exists in Hex as (o & Ho & Hge).
      rewrite Forall_forall in Hall'. specialize (Hall' o Ho). lia.
  - intros dirs labels i o Hret Hi Hcut.
    assert (Ho : 0 <= o < 2 ^ 62).
    { rewrite Forall_forall in Hons. apply Hons. eapply list_elem_of_lookup_2, Hi. }
    assert (Hlt : o + W / 2 < Z.of_nat (length sound)).
    { assert (Hr : returns (find_fm_direction rfft_magnitude sound onsetInds W))
        by (eexists; exact Hret).
      apply Hiff in Hr. rewrite Forall_forall in Hr. apply Hr.
      eapply list_elem_of_lookup_2, Hi. }
    destruct (half_windows sound o W) as [_ Hs]; [lia|lia|].
    assert (Hsecond : soundSecondHalf sound o W = drop (Z.to_nat (o + W / 2)) sound).
    { rewrite Hs, take_ge by lia. reflexivity. }
    split; [assumption|]. split.
    + rewrite Hsecond, length_drop.
      assert (1 <= W / 2) by (apply Z.div_le_lower_bound; lia).
      lia.
    + rewrite find_fm_direction_classify_all in Hret.
      destruct (classify_all rfft_magnitude sound onsetInds W) as [e|codes] eqn:Hall;
        [discriminate|].
      simpl in Hret. injection Hret as <- <-.
      apply classify_all_inr in Hall.
      destruct (Forall2_lookup_l _ _ _ _ _ Hall Hi) as (code & Hdir & Hc).
      exists code. auto.
Qed.

(** C7. When [find_fm_direction] returns, the Direction Sequence has the
    length of the Onset Sequence, and its element at each position is the
    code (0 or 1) of the onset at that position; the map returned with it is
    the fixed one. *)
Theorem find_fm_direction_aligned (sound : list float) (onsetInds : list Z)
  (W : Z) (dirs : list Z) (labels : gmap string Z) :
  find_fm_direction rfft_magnitude sound onsetInds W = inr (dirs, labels) ->
  length dirs = length onsetInds /\
  labels = sweepDirectionLabels /\
  forall (i : nat) (o : Z),
    onsetInds !! i = Some o ->
    exists code : Z,
      dirs !! i = Some code /\
      classify_onset rfft_magnitude sound o W = inr code /\
      (code = 0 \/ code = 1).
Proof.
  rewrite find_fm_direction_classify_all.
  destruct (classify_all rfft_magnitude sound onsetInds W) as [e|codes] eqn:Hall;
    [discriminate|].
  simpl. intros [= <- <-]. apply classify_all_inr in Hall.
  split; [symmetry; eapply Forall2_length, Hall|]. split; [reflexivity|].
  intros i o Hi.
  destruct (Forall2_lookup_l _ _ _ _ _ Hall Hi) as (code & Hdir & Hc).
  exists code. split; [assumption|]. split; [assumption|].
  eapply classify_onset_code, Hc.
Qed.

Lemma dominant_bin_silence (x : list float) :
  x <> [] -> Forall is_zero x -> dominant_bin rfft_magnitude x = inr 0.
Proof.
  intros Hne Hz. rewrite dominant_bin_window by assumption.
  rewrite rfft_silence by assumption. rewrite Nat.add_1_r.
  apply np_argmax_silence.
Qed.

(** C8. For an onset whose window [o, o+W) holds only zeros (and leaves
    both half-windows at least one sample), the dominant bin of both
    half-windows is 0 and the trial gets code 0, which is "up". *)
Theorem find_fm_direction_silence (sound : list float) (o W : Z) :
  2 <= W < 2 ^ 62 ->
  0 <= o < 2 ^ 62 ->
  o + W / 2 < Z.of_nat (length sound) ->
  Forall is_zero (py_slice sound o (o + W)) ->
  dominant_bin rfft_magnitude (soundFirstHalf sound o W) = inr 0 /\
  dominant_bin rfft_magnitude (soundSecondHalf sound o W) = inr 0 /\
  classify_onset rfft_magnitude sound o W = inr 0 /\
  sweepDirectionLabels !! "up" = Some 0 /\
  forall (onsetInds dirs : list Z) (labels : gmap string Z) (i : nat),
    onsetInds !! i = Some o ->
    find_fm_direction rfft_magnitude sound onsetInds W = inr (dirs, labels) ->
    dirs !! i = Some 0.
Proof.
  intros HW Ho Hlt Hzero.
  assert (1 <= W / 2) by (apply Z.div_le_lower_bound; lia).
  assert (W / 2 < W) by (apply Z.div_lt_upper_bound; lia).
  rewrite py_slice_nonneg in Hzero by lia.
  destruct (half_windows sound o W) as [Hf Hs]; [lia|lia|].
  destruct (half_windows_nil_iff sound o W) as [Hfn Hsn]; [lia|lia|].
  assert (Hz1 : Forall is_zero (soundFirstHalf sound o W)).
  { rewrite Hf.
    replace (take (Z.to_nat (o + W / 2)) sound)
      with (take (Z.to_nat (o + W / 2)) (take (Z.to_nat (o + W)) sound))
      by (rewrite take_take; f_equal; lia).
    replace (Z.to_nat (o + W / 2)) with (Z.to_nat o + Z.to_nat (W / 2))%nat by lia.
    rewrite <- take_drop_commute. now apply Forall_take. }
  assert (Hz2 : Forall is_zero (soundSecondHalf sound o W)).
  { rewrite Hs.
    replace (Z.to_nat (o + W / 2)) with (Z.to_nat o + Z.to_nat (W / 2))%nat by lia.
    rewrite <- drop_drop. now apply Forall_drop. }
  assert (Hd1 : dominant_bin rfft_magnitude (soundFirstHalf sound o W) = inr 0).
  { apply dominant_bin_silence; [rewrite Hfn; lia|assumption]. }
  assert (Hd2 : dominant_bin rfft_magnitude (soundSecondHalf sound o W) = inr 0).
  { apply dominant_bin_silence; [rewrite Hsn; lia|assumption]. }
  assert (Hcode : classify_onset rfft_magnitude sound o W = inr 0).
  { rewrite classify_onset_cases, Hd1, Hd2. reflexivity. }
  split; [assumption|]. split; [assumption|]. split; [assumption|].
  split; [reflexivity|].
  intros onsetInds dirs labels i Hi Hret.
  rewrite find_fm_direction_classify_all in Hret.
  destruct (classify_all rfft_magnitude sound onsetInds W) as [e|codes] eqn:Hall;
    [discriminate|].
  simpl in Hret. injection Hret as <- <-.
  apply classify_all_inr in Hall.
  destruct (Forall2_lookup_l _ _ _ _ _ Hall Hi) as (code & Hdir & Hc).
  simpl in Hc. rewrite Hcode in Hc. injection Hc as <-. assumption.
Qed.

End ClassifierClaims.

(** ** The classifier on concrete inputs *)

Lemma rfft_magnitude_small_length (x : list float) :
  x <> [] -> length (rfft_magnitude_small x) = (length x / 2 + 1)%nat.
Proof.
  intros _. destruct x as [|a [|b [|c x]]]; try reflexivity.
  unfold rfft_magnitude_small. apply length_replicate.
Qed.

Lemma rfft_magnitude_small_silence (x : list float) :
  x <> [] -> Forall is_zero x ->
  rfft_magnitude_small x = replicate (length x / 2 + 1)%nat 0%float.
Proof.
  intros _ Hz. destruct x as [|a [|b [|c x]]]; try reflexivity.
  - apply Forall_cons in Hz as [[-> | ->] _]; reflexivity.
  - apply Forall_cons in Hz as [[-> | ->] Hz'];
      apply Forall_cons in Hz' as [[-> | ->] _]; reflexivity.
Qed.

Lemma find_fm_direction_full_window_witness :
  soundFirstHalf example_sound 0 4 = [1; -1]%float /\
  soundSecondHalf example_sound 0 4 = [1; 1]%float /\
  sweepDirectionLabels !! "down" = Some 1 /\
  sweepDirectionLabels !! "up" = Some 0 /\
  exists f1 f2 code : Z,
    np_argmax (rfft_magnitude_small [1; -1]%float) = inr f1 /\
    np_argmax (rfft_magnitude_small [1; 1]%float) = inr f2 /\
    (Forall not_nan (rfft_magnitude_small [1; -1]%float) ->
     first_maximum (rfft_magnitude_small [1; -1]%float) f1) /\
    (Forall not_nan (rfft_magnitude_small [1; 1]%float) ->
     first_maximum (rfft_magnitude_small [1; 1]%float) f2) /\
    classify_onset rfft_magnitude_small example_sound 0 4 = inr code /\
    (code = 1 <-> f1 > f2) /\
    (code = 0 <-> f1 <= f2) /\
    forall (onsetInds dirs : list Z) (labels : gmap string Z) (i : nat),
      onsetInds !! i = Some 0 ->
      find_fm_direction rfft_magnitude_small example_sound onsetInds 4
      = inr (dirs, labels) ->
      dirs !! i = Some code.
Proof.
  apply (find_fm_direction_full_window
           rfft_magnitude_small rfft_magnitude_small_length example_sound 0 4).
  - lia.
  - lia.
  - vm_compute. discriminate.
  - vm_compute. reflexivity.
Defined.

Lemma find_fm_direction_returns_iff_witness :
  (returns (find_fm_direction rfft_magnitude_small example_sound [0; 4; 9] 4) <->
   Forall (fun o => o + 4 / 2 < Z.of_nat (length example_sound)) [0; 4; 9]) /\
  (Exists (fun o => Z.of_nat (length example_sound) <= o + 4 / 2) [0; 4; 9] ->
   find_fm_direction rfft_magnitude_small example_sound [0; 4; 9] 4
   = inl ValueError) /\
  (forall (dirs : list Z) (labels : gmap string Z) (i : nat) (o : Z),
      find_fm_direction rfft_magnitude_small example_sound [0; 4; 9] 4
      = inr (dirs, labels) ->
      [0; 4; 9] !! i = Some o ->
      Z.of_nat (length example_sound) < o + 4 ->
      soundSecondHalf example_sound o 4
      = drop (Z.to_nat (o + 4 / 2)) example_sound /\
      (0 < Z.of_nat (length (soundSecondHalf example_sound o 4)) < 4 - 4 / 2) /\
      exists code : Z,
        classify_onset rfft_magnitude_small example_sound o 4 = inr code /\
        dirs !! i = Some code).
Proof.
  apply (find_fm_direction_returns_iff
           rfft_magnitude_small rfft_magnitude_small_length
           example_sound [0; 4; 9] 4).
  - lia.
  - repeat constructor; lia.
Defined.

Lemma find_fm_direction_aligned_witness :
  length [1; 0; 0] = length [0; 4; 9] /\
  sweepDirectionLabels = sweepDirectionLabels /\
  forall (i : nat) (o : Z),
    [0; 4; 9] !! i = Some o ->
    exists code : Z,
      [1; 0; 0] !! i = Some code /\
      classify_onset rfft_magnitude_small example_sound o 4 = inr code /\
      (code = 0 \/ code = 1).
Proof.
  apply (find_fm_direction_aligned
           rfft_magnitude_small example_sound [0; 4; 9] 4
           [1; 0; 0] sweepDirectionLabels).
  vm_compute. reflexivity.
Defined.

Lemma find_fm_direction_silence_witness :
  dominant_bin rfft_magnitude_small (soundFirstHalf example_silence 0 4) = inr 0 /\
  dominant_bin rfft_magnitude_small (soundSecondHalf example_silence 0 4) = inr 0 /\
  classify_onset rfft_magnitude_small example_silence 0 4 = inr 0 /\
  sweepDirectionLabels !! "up" = Some 0 /\
  forall (onsetInds dirs : list Z) (labels : gmap string Z) (i : nat),
    onsetInds !! i = Some 0 ->
    find_fm_direction rfft_magnitude_small example_silence onsetInds 4
    = inr (dirs, labels) ->
    dirs !! i = Some 0.
Proof.
  apply (find_fm_direction_silence
           rfft_magnitude_small rfft_magnitude_small_silence
           example_silence 0 4).
  - lia.
  - lia.
  - vm_compute. reflexivity.
  - vm_compute. repeat constructor; (now left) || (now right).
Defined.

(** * Further properties of find_onsets *)

Lemma flatnonzero_from_elem (b : list bool) (i c : Z) :
  c ∈ flatnonzero_from i b <->
  exists k : nat, c = i + Z.of_nat k /\ b !! k = Some true.
Proof.
  revert i. induction b as [|x b IH]; intros i; simpl.
  - split; [intros H%elem_of_nil; contradiction|intros (k & _ & Hk); discriminate].
  - destruct x.
    + rewrite elem_of_cons, IH. split.
      * intros [-> | (k & -> & Hk)]; [exists 0%nat|exists (S k)];
          (split; [lia|assumption || reflexivity]).
      * intros (k & -> & Hk). destruct k as [|k]; [left; lia|].
        right. exists k. split; [lia|exact Hk].
    + rewrite IH. split.
      * intros (k & -> & Hk). exists (S k). split; [lia|exact Hk].
      * intros (k & -> & Hk). destruct k as [|k]; [discriminate|].
        exists k. split; [lia|exact Hk].
Qed.

Lemma map_lookup {A B : Type} (f : A -> B) (l : list A) (k : nat) :
  map f l !! k = option_map f (l !! k).
Proof.
  revert k. induction l as [|x l IH]; intros [|k]; simpl; auto.
Qed.

(** Element [k] of [np.diff(a, prepend=p)] is [a[k]] minus element [k] of
    the extended array. *)
Lemma np_diff_prepend_lookup {A : Type} (sub : A -> A -> A) (p : A)
  (a : list A) (k : nat) :
  np_diff_prepend sub p a !! k =
  match a !! k, (p :: a) !! k with
  | Some x, Some y => Some (sub x y)
  | _, _ => None
  end.
Proof.
  revert p k. induction a as [|x a IH]; intros p k.
  - destruct k; reflexivity.
  - destruct k as [|k]; [reflexivity|]. simpl. rewrite IH. reflexivity.
Qed.

(** The raw candidates are the positions whose sample exceeds the sample
    before it by more than the threshold; position 0 is compared with
    itself. *)
Lemma candidates_iff (signal : list float) (sT : float) (c : Z) :
  c ∈ candidates signal sT <->
  exists (i : nat) (x y : float),
    c = Z.of_nat i /\ signal !! i = Some x /\ signal !! (i - 1)%nat = Some y /\
    PrimFloat.ltb sT (x - y) = true.
Proof.
  destruct signal as [|s0 rest].
  - split; [intros H%elem_of_nil; contradiction|].
    intros (i & x & y & _ & Hx & _). destruct i; discriminate.
  - unfold candidates, onsetIndsAll_of, np_flatnonzero, above.
    rewrite flatnonzero_from_elem. split.
    + intros (k & -> & Hk). rewrite map_lookup, np_diff_prepend_lookup in Hk.
      destruct ((s0 :: rest) !! k) as [x|] eqn:Hx; [|discriminate].
      destruct ((s0 :: s0 :: rest) !! k) as [y|] eqn:Hy; [|discriminate].
      simpl in Hk. injection Hk as Hk. exists k, x, y.
      split; [lia|]. split; [exact Hx|]. split; [|exact Hk].
      destruct k as [|k]; [exact Hy|].
      simpl. rewrite Nat.sub_0_r. exact Hy.
    + intros (i & x & y & -> & Hx & Hy & Hlt). exists i. split; [lia|].
      rewrite map_lookup, np_diff_prepend_lookup, Hx.
      assert (Hy' : (s0 :: s0 :: rest) !! i = Some y).
      { destruct i as [|i]; [exact Hy|].
        simpl in Hy. rewrite Nat.sub_0_r in Hy. exact Hy. }
      rewrite Hy'. simpl. now rewrite Hlt.
Qed.

(** X3. Every onset returned by [find_onsets] is a position [i] of the
    signal at which the sample exceeds the previous sample (for [i = 0]:
    the sample itself) by more than [signalThreshold], in float64
    arithmetic. *)
Theorem find_onsets_onset_rises
  (signal : list float) (sT : float) (pT : Z) (out : list Z) (o : Z) :
  find_onsets signal sT pT = inr out ->
  o ∈ out ->
  exists (i : nat) (x y : float),
    o = Z.of_nat i /\ signal !! i = Some x /\ signal !! (i - 1)%nat = Some y /\
    PrimFloat.ltb sT (x - y) = true.
Proof.
  intros Hout Ho. apply find_onsets_inv in Hout as [_ ->].
  apply keep_elem_of in Ho. now apply candidates_iff.
Qed.

Lemma find_onsets_onset_rises_witness :
  exists (i : nat) (x y : float),
    17 = Z.of_nat i /\ late_waveform !! i = Some x /\
    late_waveform !! (i - 1)%nat = Some y /\
    PrimFloat.ltb 0.1 (x - y) = true.
Proof.
  apply (find_onsets_onset_rises late_waveform 0.1%float 5 [10; 17] 17).
  - vm_compute. reflexivity.
  - apply elem_of_cons. right. apply elem_of_cons. left. reflexivity.
Defined.

(** In float64, [x - x] is the positive zero, or NaN when [x] is infinite
    or NaN. *)
Lemma sub_self_spec (x : float) :
  Prim2SF (x - x) = S754_zero false \/ Prim2SF (x - x) = S754_nan.
Proof.
  rewrite FloatAxioms.sub_spec. destruct (Prim2SF x) as [s|s| |s m e].
  - left. destruct s; reflexivity.
  - right. destruct s; reflexivity.
  - right. reflexivity.
  - left. unfold SF64sub, SFsub. rewrite Z.sub_diag. reflexivity.
Qed.

Lemma ltb_sub_self (sT x : float) :
  PrimFloat.ltb sT 0 = false -> PrimFloat.ltb sT (x - x) = false.
Proof.
  intros H. rewrite ltb_spec in *.
  destruct (sub_self_spec x) as [-> | ->].
  - exact H.
  - unfold SFltb. destruct (Prim2SF sT); reflexivity.
Qed.

(** X4. With a threshold that is not negative, position 0 is never an
    onset: the first difference is [signal[0] - signal[0]]. So a jump
    already present in the first sample is not detected. *)
Theorem find_onsets_never_first_sample
  (signal : list float) (sT : float) (pT : Z) (out : list Z) :
  PrimFloat.ltb sT 0 = false ->
  find_onsets signal sT pT = inr out ->
  Forall (fun o => 1 <= o) out.
Proof.
  intros HsT Hout. apply Forall_forall. intros o Ho.
  apply find_onsets_inv in Hout as [_ ->]. apply keep_elem_of in Ho.
  apply candidates_iff in Ho as (i & x & y & -> & Hx & Hy & Hlt).
  destruct i as [|i]; [|lia]. simpl in Hy. rewrite Hx in Hy. injection Hy as <-.
  rewrite (ltb_sub_self sT x HsT) in Hlt. discriminate.
Qed.

Lemma find_onsets_never_first_sample_witness :
  Forall (fun o => 1 <= o) [2].
Proof.
  apply (find_onsets_never_first_sample [5; 5; 9]%float 0.1%float 1 [2]).
  - vm_compute. reflexivity.
  - vm_compute. reflexivity.
Defined.

(** X5. A constant waveform has no onset, whatever its level and length,
    when the threshold is not negative. *)
Theorem find_onsets_constant
  (n : nat) (s sT : float) (pT : Z) :
  PrimFloat.ltb sT 0 = false ->
  find_onsets (replicate (S n) s) sT pT = inr [].
Proof.
  intros HsT. change (replicate (S n) s) with (s :: replicate n s).
  rewrite find_onsets_keep.
  destruct (candidates (s :: replicate n s) sT) as [|c cs] eqn:Hcs; [reflexivity|].
  exfalso. assert (Hc : c ∈ candidates (s :: replicate n s) sT)
    by (rewrite Hcs; apply elem_of_cons; now left).
  apply candidates_iff in Hc as (i & x & y & _ & Hx & Hy & Hlt).
  change (s :: replicate n s) with (replicate (S n) s) in Hx, Hy.
  apply lookup_replicate in Hx as [-> _]. apply lookup_replicate in Hy as [-> _].
  rewrite (ltb_sub_self sT s HsT) in Hlt. discriminate.
Qed.

Lemma find_onsets_constant_witness :
  find_onsets (replicate 4 0.5%float) 0.1%float 5 = inr [].
Proof.
  apply (find_onsets_constant 3 0.5%float 0.1%float 5).
  vm_compute. reflexivity.
Defined.

Lemma sorted_lookup_lt (cs : list Z) (j k : nat) (a b : Z) :
  StronglySorted Z.lt cs -> (j < k)%nat ->
  cs !! j = Some b -> cs !! k = Some a -> b < a.
Proof.
  intros Hs. revert j k. induction Hs as [|x cs Hs IH Hx]; intros j k Hjk Hb Ha.
  - discriminate.
  - destruct k as [|k]; [lia|]. simpl in Ha. destruct j as [|j]; simpl in Hb.
    + injection Hb as <-. rewrite Forall_forall in Hx.
      apply Hx. eapply list_elem_of_lookup_2, Ha.
    + apply (IH j k); [lia|assumption|assumption].
Qed.

(** A kept candidate is at least [periodThreshold] after every raw
    candidate before it. *)
Lemma kept_after (signal : list float) (sT : float) (pT x a : Z) :
  Z.of_nat (length signal) <= 2 ^ 63 ->
  x ∈ keep pT pT (candidates signal sT) ->
  a ∈ candidates signal sT -> a < x ->
  pT <= x - a.
Proof.
  intros Hlen Hx Ha Hax.
  pose proof (candidates_sorted signal sT) as Hs.
  pose proof (candidates_bounds signal sT) as Hbd.
  rewrite Forall_forall in Hbd.
  pose proof (keep_elem_of _ _ _ _ Hx) as Hxc.
  apply list_elem_of_lookup_1 in Ha as [k Hk].
  apply list_elem_of_lookup_1 in Hxc as [j Hj].
  destruct j as [|i].
  - pose proof (sorted_lookup_le _ 0 k a x Hs ltac:(lia) Hj Hk). lia.
  - destruct (lookup_lt_is_Some_2 (candidates signal sT) i) as [p Hp].
    { apply lookup_lt_Some in Hj. lia. }
    assert (Hap : a <= p).
    { destruct (Nat.le_gt_cases k i) as [Hki|Hki].
      - exact (sorted_lookup_le _ k i p a Hs Hki Hk Hp).
      - pose proof (sorted_lookup_le _ (S i) k a x Hs ltac:(lia) Hj Hk). lia. }
    pose proof (sorted_lookup_lt _ i (S i) x p Hs ltac:(lia) Hp Hj) as Hpx.
    pose proof (Hbd p (list_elem_of_lookup_2 _ _ _ Hp)) as Hbp.
    pose proof (Hbd x (list_elem_of_lookup_2 _ _ _ Hj)) as Hbx.
    apply (keep_next pT pT p x _ i Hs Hp Hj) in Hx.
    unfold sub64 in Hx. rewrite wrap64_small in Hx by lia. lia.
Qed.

(** Membership of a candidate in the filtered array, by its position. *)
Lemma kept_iff (signal : list float) (sT : float) (pT x : Z) (j : nat) :
  Z.of_nat (length signal) <= 2 ^ 62 ->
  - 2 ^ 62 <= pT < 2 ^ 63 ->
  candidates signal sT !! j = Some x ->
  x ∈ keep pT pT (candidates signal sT) <->
  match j with
  | O => 2 * pT <= x
  | S i => exists p, candidates signal sT !! i = Some p /\ pT <= x - p
  end.
Proof.
  intros Hlen HpT Hj.
  pose proof (candidates_sorted signal sT) as Hs.
  pose proof (candidates_bounds signal sT) as Hbd.
  rewrite Forall_forall in Hbd.
  pose proof (Hbd x (list_elem_of_lookup_2 _ _ _ Hj)) as Hbx.
  destruct j as [|i].
  - destruct (candidates signal sT) as [|c cs]; [discriminate|].
    simpl in Hj. injection Hj as ->.
    rewrite (keep_head pT pT x cs Hs). unfold sub64.
    rewrite wrap64_small by lia. lia.
  - destruct (lookup_lt_is_Some_2 (candidates signal sT) i) as [p Hp].
    { apply lookup_lt_Some in Hj. lia. }
    pose proof (Hbd p (list_elem_of_lookup_2 _ _ _ Hp)) as Hbp.
    rewrite (keep_next pT pT p x _ i Hs Hp Hj). unfold sub64.
    pose proof (sorted_lookup_lt _ i (S i) x p Hs ltac:(lia) Hp Hj) as Hpx.
    rewrite wrap64_small by lia. split.
    + intros H. exists p. auto.
    + intros (p' & Hp' & H). rewrite Hp in Hp'. injection Hp' as <-. exact H.
Qed.

(** X6. Raising [periodThreshold] never adds an onset: the Onset Sequence
    for the larger period is contained in the one for the smaller. *)
Theorem find_onsets_period_antitone
  (signal : list float) (sT : float) (pT pT' : Z) (out out' : list Z) (x : Z) :
  Z.of_nat (length signal) <= 2 ^ 62 ->
  - 2 ^ 62 <= pT -> pT <= pT' -> pT' < 2 ^ 63 ->
  find_onsets signal sT pT = inr out ->
  find_onsets signal sT pT' = inr out' ->
  x ∈ out' -> x ∈ out.
Proof.
  intros Hlen Hlo Hle Hhi Hout Hout' Hx.
  apply find_onsets_inv in Hout as [_ ->].
  apply find_onsets_inv in Hout' as [_ ->].
  pose proof (keep_elem_of _ _ _ _ Hx) as Hxc.
  apply list_elem_of_lookup_1 in Hxc as [j Hj].
  apply (kept_iff signal sT pT' x j) in Hx; [|lia|lia|exact Hj].
  apply (kept_iff signal sT pT x j); [lia|lia|exact Hj|].
  destruct j as [|i]; [lia|].
  destruct Hx as (p & Hp & H). exists p. split; [exact Hp|lia].
Qed.

Lemma find_onsets_period_antitone_witness : 17 ∈ [10; 17].
Proof.
  apply (find_onsets_period_antitone late_waveform 0.1%float 5 7 [10; 17] [17] 17).
  - vm_compute. discriminate.
  - lia.
  - lia.
  - lia.
  - vm_compute. reflexivity.
  - vm_compute. reflexivity.
  - apply elem_of_cons. left. reflexivity.
Defined.

(** X7. With a positive [periodThreshold], the onset at position [k] of
    the returned sequence (counting from 0) is at or after sample
    [(k + 1) * periodThreshold]; so no onset lies in the first
    [periodThreshold] samples, and the number of onsets times
    [periodThreshold] is below the length of the signal. *)
Theorem find_onsets_count
  (signal : list float) (sT : float) (pT : Z) (out : list Z) :
  Z.of_nat (length signal) <= 2 ^ 62 ->
  0 < pT < 2 ^ 63 ->
  find_onsets signal sT pT = inr out ->
  (forall (k : nat) (x : Z),
      out !! k = Some x -> (Z.of_nat k + 1) * pT <= x) /\
  Z.of_nat (length out) * pT < Z.of_nat (length signal).
Proof.
  intros Hlen HpT Hout.
  apply find_onsets_inv in Hout as [Hne ->].
  pose proof (candidates_sorted signal sT) as Hs.
  pose proof (candidates_bounds signal sT) as Hbd.
  rewrite Forall_forall in Hbd.
  set (out := keep pT pT (candidates signal sT)).
  assert (Hsorted : StronglySorted Z.lt out) by now apply keep_sorted.
  assert (Hpos : forall (k : nat) (x : Z),
             out !! k = Some x -> (Z.of_nat k + 1) * pT <= x).
  { induction k as [|k IH]; intros x Hk.
    - apply list_elem_of_lookup_2 in Hk.
      pose proof (keep_elem_of _ _ _ _ Hk) as Hxc.
      apply list_elem_of_lookup_1 in Hxc as [j Hj].
      apply (kept_iff signal sT pT x j) in Hk; [|lia|lia|exact Hj].
      destruct j as [|i]; [lia|]. destruct Hk as (p & Hp & H).
      pose proof (Hbd p (list_elem_of_lookup_2 _ _ _ Hp)). lia.
    - destruct (lookup_lt_is_Some_2 out k) as [a Ha].
      { apply lookup_lt_Some in Hk. lia. }
      pose proof (sorted_lookup_lt _ k (S k) x a Hsorted ltac:(lia) Ha Hk) as Hax.
      specialize (IH a Ha).
      apply list_elem_of_lookup_2 in Hk, Ha.
      apply keep_elem_of in Ha.
      pose proof (kept_after signal sT pT x a ltac:(lia) Hk Ha Hax). nia. }
  split; [exact Hpos|].
  destruct (length out) as [|n] eqn:Hn.
  - destruct signal; [congruence|]. simpl length. lia.
  - destruct (lookup_lt_is_Some_2 out n) as [x Hx]; [lia|].
    pose proof (Hpos n x Hx).
    apply list_elem_of_lookup_2, keep_elem_of in Hx. apply Hbd in Hx. nia.
Qed.

Lemma find_onsets_count_witness :
  (forall (k : nat) (x : Z),
      [10; 17] !! k = Some x -> (Z.of_nat k + 1) * 5 <= x) /\
  Z.of_nat (length [10; 17]) * 5 < Z.of_nat (length late_waveform).
Proof.
  apply (find_onsets_count late_waveform 0.1%float 5 [10; 17]).
  - vm_compute. discriminate.
  - lia.
  - vm_compute. reflexivity.
Defined.

Lemma np_diff_prepend_app {A : Type} (sub : A -> A -> A) (p : A) (a b : list A) :
  np_diff_prepend sub p (a ++ b)
  = np_diff_prepend sub p a ++ np_diff_prepend sub (default p (last a)) b.
Proof.
  revert p. induction a as [|x a IH]; intros p; [reflexivity|].
  simpl. rewrite IH. do 3 f_equal. rewrite (last_cons x a).
  destruct (last a); reflexivity.
Qed.

Lemma flatnonzero_from_app (i : Z) (b1 b2 : list bool) :
  flatnonzero_from i (b1 ++ b2)
  = flatnonzero_from i b1 ++ flatnonzero_from (i + Z.of_nat (length b1)) b2.
Proof.
  revert i. induction b1 as [|x b1 IH]; intros i; simpl.
  - f_equal. lia.
  - rewrite IH. replace (i + 1 + Z.of_nat (length b1))
      with (i + Z.pos (Pos.of_succ_nat (length b1))) by lia.
    destruct x; reflexivity.
Qed.

Lemma keep_app (pT prev : Z) (l1 l2 : list Z) :
  keep pT prev (l1 ++ l2)
  = keep pT prev l1 ++ keep pT (default prev (last l1)) l2.
Proof.
  revert prev. induction l1 as [|c l1 IH]; intros prev; [reflexivity|].
  simpl app. rewrite !keep_cons, IH.
  replace (default prev (last (c :: l1))) with (default c (last l1))
    by (rewrite (last_cons c l1); destruct (last l1); reflexivity).
  destruct (sub64 c prev <? pT); reflexivity.
Qed.

(** X12. Recording more samples only adds onsets at the new positions:
    on a waveform extended at its end, [find_onsets] returns the Onset
    Sequence of the original waveform followed by onsets that are all at or
    after the original length. *)
Theorem find_onsets_extend
  (signal more : list float) (sT : float) (pT : Z) (out : list Z) :
  find_onsets signal sT pT = inr out ->
  exists extra : list Z,
    find_onsets (signal ++ more) sT pT = inr (out ++ extra) /\
    Forall (fun o => Z.of_nat (length signal) <= o) extra.
Proof.
  intros Hout. apply find_onsets_inv in Hout as [Hne ->].
  destruct signal as [|s0 rest]; [congruence|].
  change ((s0 :: rest) ++ more) with (s0 :: (rest ++ more)).
  rewrite find_onsets_keep.
  unfold candidates, onsetIndsAll_of, np_flatnonzero, above.
  change (s0 :: (rest ++ more)) with ((s0 :: rest) ++ more).
  rewrite np_diff_prepend_app, map_app, flatnonzero_from_app, keep_app.
  eexists. split; [reflexivity|].
  apply keep_Forall.
  eapply Forall_impl; [apply flatnonzero_from_bounds|].
  simpl. intros o. rewrite length_map, np_diff_prepend_length. simpl. lia.
Qed.

Lemma find_onsets_extend_witness :
  exists extra : list Z,
    find_onsets (late_waveform ++ [0.3; 0.3; 0.3; 0.3; 0.3; 0.9]%float)
                0.1%float 5
    = inr ([10; 17] ++ extra) /\
    Forall (fun o => Z.of_nat (length late_waveform) <= o) extra.
Proof.
  apply (find_onsets_extend late_waveform
           [0.3; 0.3; 0.3; 0.3; 0.3; 0.9]%float 0.1%float 5 [10; 17]).
  vm_compute. reflexivity.
Defined.

(** * Further properties of find_fm_direction *)

Lemma classify_all_app (rfft_magnitude : list float -> list float)
  (sound : list float) (on1 on2 : list Z) (W : Z) :
  classify_all rfft_magnitude sound (on1 ++ on2) W =
  (c1 <~ classify_all rfft_magnitude sound on1 W ;;
   c2 <~ classify_all rfft_magnitude sound on2 W ;;
   ret (c1 ++ c2)).
Proof.
  induction on1 as [|o on1 IH]; simpl.
  - destruct (classify_all rfft_magnitude sound on2 W); reflexivity.
  - destruct (classify_onset rfft_magnitude sound o W) as [e|code]; [reflexivity|].
    simpl. rewrite IH.
    destruct (classify_all rfft_magnitude sound on1 W) as [e|c1]; [reflexivity|].
    simpl. destruct (classify_all rfft_magnitude sound on2 W); reflexivity.
Qed.

(** X8. Trials do not influence one another: on a concatenation of two
    onset arrays the function returns the concatenation of the two
    Direction Sequences, and raises what the first failing part raises. *)
Theorem find_fm_direction_app (rfft_magnitude : list float -> list float)
  (sound : list float) (on1 on2 : list Z) (W : Z) :
  find_fm_direction rfft_magnitude sound (on1 ++ on2) W =
  (r1 <~ find_fm_direction rfft_magnitude sound on1 W ;;
   r2 <~ find_fm_direction rfft_magnitude sound on2 W ;;
   ret (fst r1 ++ fst r2, sweepDirectionLabels)).
Proof.
  rewrite !find_fm_direction_classify_all, classify_all_app.
  destruct (classify_all rfft_magnitude sound on1 W) as [e|c1]; [reflexivity|].
  simpl. destruct (classify_all rfft_magnitude sound on2 W); reflexivity.
Qed.

(** The two half-windows are the two parts of the window [sound[o:o+W]]. *)
Lemma half_windows_of_window (sound : list float) (o W : Z) :
  0 <= o < 2 ^ 62 -> 0 <= W < 2 ^ 62 ->
  soundFirstHalf sound o W
  = take (Z.to_nat (W / 2)) (py_slice sound o (o + W)) /\
  soundSecondHalf sound o W
  = drop (Z.to_nat (W / 2)) (py_slice sound o (o + W)).
Proof.
  intros Ho HW.
  assert (0 <= W / 2 <= W)
    by (split; [apply Z.div_pos|apply Z.div_le_upper_bound]; lia).
  destruct (half_windows sound o W Ho HW) as [-> ->].
  rewrite py_slice_nonneg by lia. split.
  - rewrite take_drop_commute, take_take. do 2 f_equal. lia.
  - rewrite drop_drop. f_equal. lia.
Qed.

(** X9. The code of a trial depends only on the samples of its window
    [sound[o:o+W]]: two onsets, in the same or in different waveforms, whose
    windows hold the same samples get the same result. *)
Theorem classify_onset_window_local
  (rfft_magnitude : list float -> list float)
  (sound sound' : list float) (o o' W : Z) :
  0 <= o < 2 ^ 62 -> 0 <= o' < 2 ^ 62 -> 0 <= W < 2 ^ 62 ->
  py_slice sound o (o + W) = py_slice sound' o' (o' + W) ->
  classify_onset rfft_magnitude sound o W
  = classify_onset rfft_magnitude sound' o' W.
Proof.
  intros Ho Ho' HW Hwin. unfold classify_onset.
  destruct (half_windows_of_window sound o W Ho HW) as [-> ->].
  destruct (half_windows_of_window sound' o' W Ho' HW) as [-> ->].
  now rewrite Hwin.
Qed.

Lemma classify_onset_window_local_witness :
  classify_onset rfft_magnitude_small example_sound 0 4
  = classify_onset rfft_magnitude_small [9; 9; 1; -1; 1; 1; 7]%float 2 4.
Proof.
  apply (classify_onset_window_local rfft_magnitude_small
           example_sound [9; 9; 1; -1; 1; 1; 7]%float 0 2 4).
  - lia.
  - lia.
  - lia.
  - vm_compute. reflexivity.
Defined.

(** X10. A window length of 0 or 1 makes the first half-window
    [sound[o:o+0]] empty, so with at least one onset the function raises
    [ValueError], whatever the waveform. *)
Theorem find_fm_direction_short_window
  (rfft_magnitude : list float -> list float)
  (sound : list float) (o : Z) (rest : list Z) (W : Z) :
  0 <= W < 2 ->
  - 2 ^ 63 <= o < 2 ^ 63 ->
  find_fm_direction rfft_magnitude sound (o :: rest) W = inl ValueError.
Proof.
  intros HW Ho. rewrite find_fm_direction_classify_all. simpl.
  rewrite classify_onset_cases. unfold soundFirstHalf.
  rewrite (Z.div_small W 2) by lia.
  rewrite wrap64_add by lia. rewrite Z.add_0_r.
  unfold py_slice. rewrite Z.sub_diag. reflexivity.
Qed.

Lemma find_fm_direction_short_window_witness :
  find_fm_direction rfft_magnitude_small example_sound [0; 4] 1
  = inl ValueError.
Proof.
  apply (find_fm_direction_short_window rfft_magnitude_small
           example_sound 0 [4] 1).
  - lia.
  - lia.
Defined.

(** * The two functions together *)

Lemma sorted_last_max (l : list Z) (m : Z) :
  StronglySorted Z.lt l -> last l = Some m -> Forall (fun x => x <= m) l.
Proof.
  intros Hs Hm. rewrite last_lookup in Hm. apply Forall_forall. intros x Hx.
  apply list_elem_of_lookup_1 in Hx as [k Hk].
  apply (sorted_lookup_le l k (Init.Nat.pred (length l)) m x Hs); [|exact Hk|exact Hm].
  apply lookup_lt_Some in Hk. lia.
Qed.

Section Pipeline.

Variable rfft_magnitude : list float -> list float.

Hypothesis rfft_length : forall x : list float,
  x <> [] -> length (rfft_magnitude x) = (length x / 2 + 1)%nat.

Lemma find_fm_direction_outcome (sound : list float) (onsetInds : list Z) (W : Z) :
  2 <= W < 2 ^ 62 ->
  Forall (fun o => 0 <= o < 2 ^ 62) onsetInds ->
  (Forall (fun o => o + W / 2 < Z.of_nat (length sound)) onsetInds ->
   exists dirs, find_fm_direction rfft_magnitude sound onsetInds W
                = inr (dirs, sweepDirectionLabels)
                /\ length dirs = length onsetInds) /\
  (~ Forall (fun o => o + W / 2 < Z.of_nat (length sound)) onsetInds ->
   find_fm_direction rfft_magnitude sound onsetInds W = inl ValueError).
Proof.
  intros HW Hons. rewrite find_fm_direction_classify_all.
  rewrite Forall_forall in Hons. split.
  - intros Hall.
    destruct (classify_all_returns rfft_magnitude sound onsetInds W) as [codes Hc].
    + rewrite Forall_forall in *. intros o Ho.
      apply (classify_onset_returns_iff rfft_magnitude rfft_length); auto.
    + rewrite Hc. exists codes. split; [reflexivity|].
      apply classify_all_inr in Hc. symmetry. eapply Forall2_length, Hc.
  - intros Hn.
    destruct (classify_all rfft_magnitude sound onsetInds W) as [e|codes] eqn:Hall.
    + apply classify_all_inl in Hall. apply Exists_exists in Hall as (o & _ & Ho).
      apply classify_onset_error in Ho. now subst e.
    + exfalso. apply Hn. apply classify_all_inr in Hall.
      apply Forall_forall. intros o Ho.
      apply list_elem_of_lookup_1 in Ho as Hi. destruct Hi as [i Hi].
      destruct (Forall2_lookup_l _ _ _ _ _ Hall Hi) as (code & _ & Hc).
      apply (classify_onset_returns_iff rfft_magnitude rfft_length sound o W);
        [auto|lia|]. now exists code.
Qed.

(** X11. Running the two functions one after the other on the same
    waveform, as the notebook does: once the onsets are found, the run
    succeeds exactly when the last onset [o] has [o + W//2 < len(sound)],
    and raises [ValueError] otherwise; only the last onset decides, because
    the onsets are increasing positions of the waveform. On success the
    three values are the Onset Sequence, a Direction Sequence of the same
    length, and the fixed label map. *)
Theorem run_cells_outcome (sound : list float) (sT : float) (pT W : Z)
  (onsetInds : list Z) :
  2 <= W < 2 ^ 62 ->
  Z.of_nat (length sound) < 2 ^ 62 ->
  find_onsets sound sT pT = inr onsetInds ->
  (returns (run_cells rfft_magnitude sound sT pT W) <->
   forall o, last onsetInds = Some o -> o + W / 2 < Z.of_nat (length sound)) /\
  ((exists o, last onsetInds = Some o /\ Z.of_nat (length sound) <= o + W / 2) ->
   run_cells rfft_magnitude sound sT pT W = inl ValueError) /\
  (forall (on dirs : list Z) (labels : gmap string Z),
      run_cells rfft_magnitude sound sT pT W = inr (on, dirs, labels) ->
      on = onsetInds /\ length dirs = length onsetInds /\
      labels = sweepDirectionLabels).
Proof.
  intros HW Hlen Hout.
  assert (Hsorted : StronglySorted Z.lt onsetInds).
  { apply find_onsets_inv in Hout as [_ ->].
    apply keep_sorted, candidates_sorted. }
  assert (Hbd : Forall (fun o => 0 <= o < 2 ^ 62) onsetInds).
  { apply find_onsets_inv in Hout as [_ ->]. apply keep_Forall.
    eapply Forall_impl; [apply candidates_bounds|]. simpl. intros; lia. }
  assert (Hlast : Forall (fun o => o + W / 2 < Z.of_nat (length sound)) onsetInds
                  <-> forall o, last onsetInds = Some o ->
                                o + W / 2 < Z.of_nat (length sound)).
  { split.
    - intros Hall o Ho. rewrite Forall_forall in Hall.
      apply Hall. now apply last_Some_elem_of.
    - intros H. destruct (last onsetInds) as [m|] eqn:Hm.
      + specialize (H m eq_refl).
        eapply Forall_impl; [apply (sorted_last_max _ m Hsorted Hm)|].
        simpl. intros; lia.
      + apply last_None in Hm. subst. constructor. }
  destruct (find_fm_direction_outcome sound onsetInds W HW Hbd) as [Hok Hbad].
  unfold run_cells. rewrite Hout. simpl.
  destruct (find_fm_direction rfft_magnitude sound onsetInds W)
    as [e|[dirs labels]] eqn:Hfm; simpl.
  - assert (Hn : ~ Forall (fun o => o + W / 2 < Z.of_nat (length sound)) onsetInds).
    { intros Hall. destruct (Hok Hall) as (? & ? & _). discriminate. }
    pose proof (Hbad Hn) as He. injection He as ->.
    split; [|split; [reflexivity|discriminate]].
    split; [intros [? ?]; discriminate|]. intros H. exfalso. apply Hn, Hlast, H.
  - assert (Hall : Forall (fun o => o + W / 2 < Z.of_nat (length sound)) onsetInds).
    { destruct (decide (Forall (fun o => o + W / 2 < Z.of_nat (length sound))
                                onsetInds)) as [H|H]; [exact H|].
      apply Hbad in H. discriminate. }
    destruct (Hok Hall) as (dirs' & Heq & Hl). injection Heq as -> ->.
    split; [|split].
    + split; [intros _; now apply Hlast|intros _; eexists; reflexivity].
    + intros (o & Ho & Hge). pose proof (proj1 Hlast Hall o Ho). lia.
    + intros on dirs labels [= <- <- <-]. auto.
Qed.

End Pipeline.

Lemma run_cells_outcome_witness :
  (returns (run_cells rfft_magnitude_small late_waveform 0.1%float 5 4) <->
   forall o, last [10; 17] = Some o ->
             o + 4 / 2 < Z.of_nat (length late_waveform)) /\
  ((exists o, last [10; 17] = Some o /\
              Z.of_nat (length late_waveform) <= o + 4 / 2) ->
   run_cells rfft_magnitude_small late_waveform 0.1%float 5 4
   = inl ValueError) /\
  (forall (on dirs : list Z) (labels : gmap string Z),
      run_cells rfft_magnitude_small late_waveform 0.1%float 5 4
      = inr (on, dirs, labels) ->
      on = [10; 17] /\ length dirs = length [10; 17] /\
      labels = sweepDirectionLabels).
Proof.
  apply (run_cells_outcome rfft_magnitude_small rfft_magnitude_small_length
           late_waveform 0.1%float 5 4 [10; 17]).
  - lia.
  - vm_compute. reflexivity.
  - vm_compute. reflexivity.
Defined.
